(** * Signal propagation over a network of nodes and lines

    A shallow embedding of [elements.py]: the classes [Signal_information],
    [Node], [Line] and [Network], followed by the properties of propagation,
    wiring and path enumeration.

    Python floats are IEEE 754 binary64 numbers and are embedded as Rocq's
    primitive floats, whose operations are the same binary64 operations.
    Python dictionaries are finite maps ([gmap]); the one dictionary that is
    iterated, [Network.nodes], also carries its insertion order.  Objects
    that are shared and mutated are addressed: the list held by a signal's
    [path] lives in a heap of list objects, and the mutually referring
    [Node] and [Line] objects refer to each other through the key under
    which the network owns them. *)

From Stdlib Require Import PrimFloat.
From stdpp Require Import gmap strings list fin_maps.

Set Warnings "-inexact-float".
Local Open Scope float_scope.

(** ** Exceptions and the state-and-exception monad *)

(** The exceptions the code can raise: a failed dictionary subscript and a
    failed tuple unpacking. *)
Inductive exn : Type :=
  | KeyError (key : string)
  | ValueError (msg : string).

(** The outcome of a call.  [Stuck] is no Python behaviour: it marks a
    reference that resolves to no object or a recursion budget that ran out,
    and is shown below never to arise. *)
Inductive result (A : Type) : Type :=
  | Val (a : A)
  | Exn (e : exn)
  | Stuck.
Arguments Val {A} a.
Arguments Exn {A} e.
Arguments Stuck {A}.

(** A computation over a mutable state [S]: the state survives an
    exception, as the objects mutated before a Python [raise] do. *)
Definition M (S A : Type) : Type := S -> result A * S.

Definition ret {S A} (a : A) : M S A := fun s => (Val a, s).

Definition bind {S A B} (m : M S A) (k : A -> M S B) : M S B :=
  fun s =>
    match m s with
    | (Val a, s') => k a s'
    | (Exn e, s') => (Exn e, s')
    | (Stuck, s') => (Stuck, s')
    end.

Definition raise {S A} (e : exn) : M S A := fun s => (Exn e, s).
Definition stuck {S A} : M S A := fun s => (Stuck, s).
Definition get {S} : M S S := fun s => (Val s, s).
Definition modify {S} (f : S -> S) : M S unit := fun s => (Val tt, f s).

Declare Scope py_scope.
Delimit Scope py_scope with py.
Notation "'let*' x ':=' m 'in' k" := (bind m (fun x => k))
  (at level 10, x pattern, m at level 100, k at level 200) : py_scope.
Notation "m ';;' k" := (bind m (fun _ => k))
  (at level 100, k at level 200, right associativity) : py_scope.
Local Open Scope py_scope.

(** [for x in l: body x] *)
Fixpoint for_each {S A} (l : list A) (body : A -> M S unit) : M S unit :=
  match l with
  | [] => ret tt
  | x :: l' => body x;; for_each l' body
  end.

(** [d[k]] on a dictionary: the value, or [KeyError]. *)
Definition subscript {S V} (d : gmap string V) (k : string) : M S V :=
  match d !! k with
  | Some v => ret v
  | None => raise (KeyError k)
  end.

(** ** The heap of list objects *)

Definition loc := positive.

(** ** 1) Signal_information *)

Module Signal_information.

Record t : Type := mk {
  signal_power : float;
  noise_power : float;
  latency : float;
  path : loc               (* the list object held by [self.path] *)
}.

(** The state a signal's methods act on: the signal object and the heap
    holding its path list. *)
Definition world : Type := (t * gmap loc (list string))%type.

(** [__init__(signal_power, path)]: [list(path)] allocates a new list
    object holding the elements of the caller's list. *)
Definition init (signal_power : float) (path : loc)
  : M (gmap loc (list string)) t :=
  fun h =>
    match h !! path with
    | Some elems =>
        let own := fresh (dom h) in
        (Val (mk signal_power 0 0 own), <[own := elems]> h)
    | None => (Stuck, h)
    end.

Definition update_signal_power (increment : float) : M world unit :=
  modify (fun '(self, h) =>
    (mk (signal_power self + increment) (noise_power self) (latency self)
        (path self), h)).

Definition update_noise_power (increment : float) : M world unit :=
  modify (fun '(self, h) =>
    (mk (signal_power self) (noise_power self + increment) (latency self)
        (path self), h)).

Definition update_latency (increment : float) : M world unit :=
  modify (fun '(self, h) =>
    (mk (signal_power self) (noise_power self) (latency self + increment)
        (path self), h)).

(** Reading [self.path]: the current elements of the list object. *)
Definition get_path : M world (list string) :=
  fun '(self, h) =>
    match h !! path self with
    | Some elems => (Val elems, (self, h))
    | None => (Stuck, (self, h))
    end.

(** [if self.path: self.path.pop(0)] *)
Definition update_path : M world unit :=
  let* elems := get_path in
  match elems with
  | [] => ret tt
  | _ :: rest => modify (fun '(self, h) => (self, <[path self := rest]> h))
  end.

Definition get_signal_power : M world float :=
  fun '(self, h) => (Val (signal_power self), (self, h)).

End Signal_information.

(** [main.py] repeats the first lines of these classes; its constructor
    keeps the caller's list itself, [self.path = path]. *)
Module Main.

Definition init (signal_power : float) (path : loc)
  : M (gmap loc (list string)) Signal_information.t :=
  ret (Signal_information.mk signal_power 0 0 path).

End Main.

(** ** References between nodes and lines *)

(** A [Line] object is created once under its key in [Network.lines] and a
    [Node] object once under its key in [Network.nodes]; neither is ever
    replaced, so the key is the object's address. *)
Inductive line_ref : Type := LineRef (key : string).
Inductive node_ref : Type := NodeRef (key : string).

(** ** 3) Line *)

Module Line.

Record t : Type := mk {
  label : string;
  length : float;
  successive : gmap string node_ref
}.

(** [Line(label, length)]; [float(length)] is the identity on a float. *)
Definition init (label : string) (length : float) : t := mk label length ∅.

Definition latency_generation (self : t) : float :=
  let c := 3e8 in
  let v := (2.0 / 3.0) * c in
  length self / v.

Definition noise_generation (self : t) (signal_power : float) : float :=
  1e-9 * signal_power * length self.

End Line.

(** ** 2) Node *)

Module Node.

(** The dictionary handed to [Node.__init__]: each of the three keys may
    be absent.  The numbers of a position are taken as floats, which is what
    [math.hypot] makes of them. *)
Record node_dict : Type := mk_dict {
  d_label : option string;
  d_position : option (list float);
  d_connected_nodes : option (list string)
}.

Record t : Type := mk {
  label : string;
  position : list float;
  connected_nodes : list string;
  successive : gmap string line_ref
}.

Definition field {S A} (name : string) (o : option A) : M S A :=
  match o with
  | Some a => ret a
  | None => raise (KeyError name)
  end.

Definition init {S} (nd : node_dict) : M S t :=
  let* label := field "label" (d_label nd) in
  let* position := field "position" (d_position nd) in
  let* connected_nodes := field "connected_nodes" (d_connected_nodes nd) in
  ret (mk label position connected_nodes ∅).

End Node.

(** ** Propagation: [Node.propagate] and [Line.propagate]

    The two methods call each other until the path is used up.  The
    recursion is bounded by a budget of calls; [Network.propagate] below
    supplies a budget that the path can never exhaust. *)

Section Propagate.

Import Signal_information.

Variable nodes : gmap string Node.t.
Variable lines : gmap string Line.t.

Fixpoint Node_propagate (budget : nat) (self : Node.t) : M world unit :=
  match budget with
  | O => stuck
  | S budget =>
      (* We are at this node: consume it from the path *)
      update_path;;
      (* If there is a next node, forward the signal to the proper line *)
      let* path := get_path in
      match path with
      | [] => ret tt
      | next_node :: _ =>
          let line_key := Node.label self +:+ next_node in
          let* (LineRef k) := subscript (Node.successive self) line_key in
          match lines !! k with
          | Some line => Line_propagate budget line
          | None => stuck
          end
      end
  end

with Line_propagate (budget : nat) (self : Line.t) : M world unit :=
  match budget with
  | O => stuck
  | S budget =>
      (* Update latency and noise (increments) *)
      update_latency (Line.latency_generation self);;
      let* signal_power := get_signal_power in
      update_noise_power (Line.noise_generation self signal_power);;
      (* Hand off to the next node in the path *)
      let* path := get_path in
      match path with
      | [] => ret tt
      | next_node_label :: _ =>
          let* (NodeRef k) :=
            subscript (Line.successive self) next_node_label in
          match nodes !! k with
          | Some next_node => Node_propagate budget next_node
          | None => stuck
          end
      end
  end.

End Propagate.

(** ** 4) Network *)

Module Network.

Record t : Type := mk {
  nodes : gmap string Node.t;
  node_order : list string;      (* insertion order of the keys of [nodes] *)
  lines : gmap string Line.t
}.

(** [self.nodes[label] = node]: a new key goes last, a present key keeps
    its place. *)
Definition set_node (label : string) (node : Node.t) : M t unit :=
  modify (fun self =>
    mk (<[label := node]> (nodes self))
       (if decide (label ∈ node_order self) then node_order self
        else node_order self ++ [label])
       (lines self)).

(** [nd.setdefault("label", label)] *)
Definition setdefault_label (nd : Node.node_dict) (label : string)
  : Node.node_dict :=
  Node.mk_dict
    (match Node.d_label nd with Some l => Some l | None => Some label end)
    (Node.d_position nd) (Node.d_connected_nodes nd).

(** The body of the loop of [__init__]. *)
Definition init_entry (entry : string * Node.node_dict) : M t unit :=
  let '(label, nd) := entry in
  let nd := setdefault_label nd label in
  let* node := Node.init nd in
  set_node label node.

(** [__init__]: [data] is the dictionary read from the JSON file, as its
    items in order. *)
Definition init_loop (data : list (string * Node.node_dict)) : M t unit :=
  for_each data init_entry.

Definition init (data : list (string * Node.node_dict)) : result t :=
  match init_loop data (mk ∅ [] ∅) with
  | (Val _, self) => Val self
  | (Exn e, _) => Exn e
  | (Stuck, _) => Stuck
  end.

(** [self.nodes.items()] *)
Definition items (self : t) : list (string * Node.t) :=
  omap (fun k => pair k <$> nodes self !! k) (node_order self).

(** [ax, ay = position] *)
Definition unpack2 {S} (position : list float) : M S (float * float) :=
  match position with
  | [x; y] => ret (x, y)
  | [] | [_] => raise (ValueError "not enough values to unpack")
  | _ => raise (ValueError "too many values to unpack")
  end.

Definition set_line (ab : string) (line : Line.t) : M t unit :=
  modify (fun self => mk (nodes self) (node_order self)
                         (<[ab := line]> (lines self))).

(** [node_a.successive[ab] = line_ab], on the node object owned under
    [a_label]. *)
Definition set_node_successive (a_label ab : string) (line_ab : line_ref)
  : M t unit :=
  modify (fun self =>
    mk (alter (fun n => Node.mk (Node.label n) (Node.position n)
                          (Node.connected_nodes n)
                          (<[ab := line_ab]> (Node.successive n)))
              a_label (nodes self))
       (node_order self) (lines self)).

(** [line_ab.successive[b_label] = node_b], on the line object owned under
    [ab]. *)
Definition set_line_successive (ab b_label : string) (node_b : node_ref)
  : M t unit :=
  modify (fun self =>
    mk (nodes self) (node_order self)
       (alter (fun l => Line.mk (Line.label l) (Line.length l)
                          (<[b_label := node_b]> (Line.successive l)))
              ab (lines self))).

Section Connect.

(** [math.hypot] of two floats. *)
Variable hypot : float -> float -> float.

(** The body of the inner loop that creates the lines. *)
Definition create_line (a_label : string) (ax ay : float)
    (b_label : string) : M t unit :=
  let* self := get in
  let* node_b := subscript (nodes self) b_label in
  let* (bx, by_) := unpack2 (Node.position node_b) in
  let length := hypot (bx - ax) (by_ - ay) in
  let ab := a_label +:+ b_label in
  if decide (ab ∈ dom (lines self)) then ret tt
  else set_line ab (Line.init ab length).

(** Create all lines *)
Definition create_lines : M t unit :=
  let* self0 := get in
  for_each (items self0) (fun '(a_label, node_a) =>
    let* (ax, ay) := unpack2 (Node.position node_a) in
    for_each (Node.connected_nodes node_a) (create_line a_label ax ay)).

(** The body of the inner loop that wires the lines. *)
Definition wire_edge (a_label b_label : string) : M t unit :=
  let ab := a_label +:+ b_label in
  let* self := get in
  let* _ := subscript (lines self) ab in
  set_node_successive a_label ab (LineRef ab);;
  let* self := get in
  let* _ := subscript (nodes self) b_label in
  set_line_successive ab b_label (NodeRef b_label).

(** Connect node -> line and line -> next node *)
Definition wire : M t unit :=
  let* self0 := get in
  for_each (items self0) (fun '(a_label, node_a) =>
    for_each (Node.connected_nodes node_a) (wire_edge a_label)).

Definition connect : M t unit := create_lines;; wire.

End Connect.

(** [find_paths]: the nested [dfs] appends to the local list [paths],
    which is its state. *)
Section Find_paths.

Variable self : t.
Variable end_ : string.

Fixpoint dfs (budget : nat) (curr : string) (path : list string)
  : M (list (list string)) unit :=
  match budget with
  | O => stuck
  | S budget =>
      if decide (curr = end_) then
        modify (fun paths => paths ++ [path])
      else
        let* node := subscript (nodes self) curr in
        for_each (Node.connected_nodes node) (fun nxt =>
          if decide (nxt ∈ path) then ret tt
          else dfs budget nxt (path ++ [nxt]))
  end.

End Find_paths.

(** A simple path visits each node at most once, so the recursion is at
    most one deeper than the number of nodes. *)
Definition find_paths (self : t) (start end_ : string)
  : result (list (list string)) :=
  if decide (start ∉ dom (nodes self) \/ end_ ∉ dom (nodes self))
  then Val []
  else
    match dfs self end_ (S (size (nodes self))) start [start] [] with
    | (Val _, paths) => Val paths
    | (Exn e, _) => Exn e
    | (Stuck, _) => Stuck
    end.

(** [propagate]: start propagation from the first node in the signal
    path.  Each node consumes one element of the path and each line lies
    between two nodes, so twice the length of the path bounds the calls. *)
Definition propagate (self : t)
  : M Signal_information.world Signal_information.t :=
  let* path := Signal_information.get_path in
  match path with
  | [] => let* (signal_information, _) := get in ret signal_information
  | start_label :: _ =>
      let* node := subscript (nodes self) start_label in
      Node_propagate (nodes self) (lines self)
        (2 * List.length path) node;;
      let* (signal_information, _) := get in ret signal_information
  end.

End Network.

(** * Vocabulary of the properties *)

(** The sum accumulated by repeated [+=] from [0.0], in list order. *)
Definition fsum (l : list float) : float := fold_left PrimFloat.add l 0.

Section Vocabulary.

Variable net : Network.t.

(** The line a node forwards to for a given next hop: the object held by
    [successive] under the node's label followed by the next label. *)
Definition link (a b : string) : option Line.t :=
  match Network.nodes net !! a with
  | Some n =>
      match Node.successive n !! (Node.label n +:+ b) with
      | Some (LineRef k) => Network.lines net !! k
      | None => None
      end
  | None => None
  end.

(** The hop from [a] to [b] is wired: [a] holds a line for it and that
    line leads to [b]. *)
Definition hop_wired (a b : string) : bool :=
  match link a b with
  | Some l => bool_decide (is_Some (Line.successive l !! b))
  | None => false
  end.

Fixpoint all_wired (p : list string) : bool :=
  match p with
  | a :: (b :: _) as rest => hop_wired a b && all_wired rest
  | _ => true
  end.

(** The lines traversed along a path, hop by hop. *)
Fixpoint links (p : list string) : list Line.t :=
  match p with
  | a :: (b :: _) as rest =>
      match link a b with
      | Some l => l :: links rest
      | None => links rest
      end
  | _ => []
  end.

(** Every reference held by a node or a line resolves to an object of the
    network, and a line's entry for a label is the node owned under that
    label. *)
Definition refs_ok : Prop :=
  (forall a n k r,
      Network.nodes net !! a = Some n -> Node.successive n !! k = Some r ->
      r = LineRef k /\ k ∈ dom (Network.lines net))
  /\ (forall k l b r,
      Network.lines net !! k = Some l -> Line.successive l !! b = Some r ->
      r = NodeRef b /\ b ∈ dom (Network.nodes net)).

(** [b] is in the adjacency list of the node owned under [a]. *)
Definition adjacent (a b : string) : Prop :=
  exists n, Network.nodes net !! a = Some n /\ b ∈ Node.connected_nodes n.

(** Every adjacency list names only nodes of the network. *)
Definition adjacency_closed : Prop :=
  map_Forall (fun _ n =>
      Forall (fun b => b ∈ dom (Network.nodes net)) (Node.connected_nodes n))
    (Network.nodes net).

(** Consecutive elements are adjacent. *)
Fixpoint chain (p : list string) : Prop :=
  match p with
  | a :: (b :: _) as rest => adjacent a b /\ chain rest
  | _ => True
  end.

(** A simple path of the network from [start] to [end_]. *)
Definition simple_path (start end_ : string) (p : list string) : Prop :=
  head p = Some start /\ last p = Some end_ /\ NoDup p
  /\ Forall (fun x => x ∈ dom (Network.nodes net)) p /\ chain p.

(** The edges of the adjacency lists, in the order [connect] visits
    them. *)
Definition edges : list (string * string) :=
  '(a, n) ← Network.items net; b ← Node.connected_nodes n; [(a, b)].

(** The key under which [connect] files the line of an edge. *)
Definition edge_key (e : string * string) : string := e.1 +:+ e.2.

(** Distinct edges have distinct keys. *)
Definition keys_unique : Prop :=
  Forall (fun e1 =>
    Forall (fun e2 => edge_key e1 = edge_key e2 -> e1 = e2) edges) edges.

End Vocabulary.

(** The network [__init__] leaves behind: no line, no wiring, and the keys
    of [nodes] listed once each in [node_order]. *)
Definition fresh_network (net : Network.t) : Prop :=
  Network.lines net = ∅
  /\ (forall a n, Network.nodes net !! a = Some n -> Node.successive n = ∅)
  /\ NoDup (Network.node_order net)
  /\ (forall a, a ∈ Network.node_order net <-> a ∈ dom (Network.nodes net)).

(** ** Relations between states *)

(** [m] moves every state along the relation [R], whatever its outcome. *)
Definition preserves {S A} (R : S -> S -> Prop) (m : M S A) : Prop :=
  forall s, R s (m s).2.

(** The relation of keeping an invariant. *)
Definition keeps {S} (I : S -> Prop) (s s' : S) : Prop := I s -> I s'.

(** What a signal's methods leave alone: its power, the identity of its
    path list, and every other list object. *)
Definition frame (w w' : Signal_information.world) : Prop :=
  Signal_information.path w'.1 = Signal_information.path w.1
  /\ Signal_information.signal_power w'.1 = Signal_information.signal_power w.1
  /\ forall l, l <> Signal_information.path w.1 -> w'.2 !! l = w.2 !! l.

(** The signal after traversing the lines [ls]. *)
Definition after_walk (si : Signal_information.t) (ls : list Line.t)
  : Signal_information.t :=
  Signal_information.mk
    (Signal_information.signal_power si)
    (fold_left PrimFloat.add
       (map (fun l => Line.noise_generation l
                        (Signal_information.signal_power si)) ls)
       (Signal_information.noise_power si))
    (fold_left PrimFloat.add (map Line.latency_generation ls)
       (Signal_information.latency si))
    (Signal_information.path si).

(** A node, or a line, as [connect] may have changed it: only entries of
    [successive] are added, each a reference under its own key. *)
Definition node_le (n n' : Node.t) : Prop :=
  Node.label n' = Node.label n /\ Node.position n' = Node.position n
  /\ Node.connected_nodes n' = Node.connected_nodes n
  /\ forall k, Node.successive n !! k = Some (LineRef k) ->
               Node.successive n' !! k = Some (LineRef k).

Definition line_le (l l' : Line.t) : Prop :=
  Line.label l' = Line.label l /\ Line.length l' = Line.length l
  /\ forall b, Line.successive l !! b = Some (NodeRef b) ->
               Line.successive l' !! b = Some (NodeRef b).

Definition grows (s s' : Network.t) : Prop :=
  Network.node_order s' = Network.node_order s
  /\ dom (Network.nodes s') = dom (Network.nodes s)
  /\ (forall a n, Network.nodes s !! a = Some n ->
        exists n', Network.nodes s' !! a = Some n' /\ node_le n n')
  /\ (forall k l, Network.lines s !! k = Some l ->
        exists l', Network.lines s' !! k = Some l' /\ line_le l l').

Definition is_pair (p : list float) : Prop := exists x y, p = [x; y].

(** What the first loop of [connect] achieves for an edge, and what the
    second does. *)
Definition edge_created (s : Network.t) (a b : string) : Prop :=
  (exists nb, Network.nodes s !! b = Some nb /\ is_pair (Node.position nb))
  /\ (a +:+ b) ∈ dom (Network.lines s).

Definition edge_wired (s : Network.t) (a b : string) : Prop :=
  (exists n, Network.nodes s !! a = Some n
             /\ Node.successive n !! (a +:+ b) = Some (LineRef (a +:+ b)))
  /\ (exists l, Network.lines s !! (a +:+ b) = Some l
                /\ Line.successive l !! b = Some (NodeRef b)).

(** The state [connect] leaves behind. *)
Definition connected (s : Network.t) : Prop :=
  forall a na, (a, na) ∈ Network.items s ->
    is_pair (Node.position na)
    /\ forall b, b ∈ Node.connected_nodes na ->
         edge_created s a b /\ edge_wired s a b.

(** An entry [Node.__init__] accepts. *)
Definition well_formed_entry (nd : Node.node_dict) : Prop :=
  is_Some (Node.d_position nd) /\ is_Some (Node.d_connected_nodes nd).

(** The node [__init__] builds for an accepted entry. *)
Definition node_of (key : string) (nd : Node.node_dict) : Node.t :=
  Node.mk (default key (Node.d_label nd)) (default [] (Node.d_position nd))
          (default [] (Node.d_connected_nodes nd)) ∅.

(** The simple paths that continue [path], whose last node is [curr], up
    to [end_]. *)
Definition extends (net : Network.t) (end_ : string) (path : list string)
    (curr : string) (q : list string) : Prop :=
  exists ext, q = path ++ ext /\ NoDup q /\ chain net (curr :: ext)
              /\ last (curr :: ext) = Some end_.

(** The line [connect] makes for an edge of the network [s0]: labelled by
    the edge's key and as long as the distance between the two positions. *)
Definition line_of_edge (hypot : float -> float -> float) (s0 : Network.t)
    (k : string) (l : Line.t) : Prop :=
  exists a na b nb ax ay bx by_,
    (a, na) ∈ Network.items s0 /\ b ∈ Node.connected_nodes na
    /\ Network.nodes s0 !! b = Some nb
    /\ Node.position na = [ax; ay] /\ Node.position nb = [bx; by_]
    /\ k = a +:+ b /\ Line.label l = k
    /\ Line.length l = hypot (bx - ax)%float (by_ - ay)%float.

(** Every line of [s] was made for an edge of [s0], from which [s] grew. *)
Definition lines_of_edges (hypot : float -> float -> float)
    (s0 s : Network.t) : Prop :=
  grows s0 s
  /\ forall k l, Network.lines s !! k = Some l -> line_of_edge hypot s0 k l.

(** What propagation may do to the path of a signal: the list object stays
    the same and only loses elements from its front. *)
Definition spends (w w' : Signal_information.world) : Prop :=
  Signal_information.path w'.1 = Signal_information.path w.1
  /\ forall p, w.2 !! Signal_information.path w.1 = Some p ->
       exists q, w'.2 !! Signal_information.path w.1 = Some q
                 /\ q `suffix_of` p.

(** A network [connect] can wire: every position is a pair and every
    neighbour is a node. *)
Definition connectable (net : Network.t) : Prop :=
  Forall (fun x =>
      is_pair (Node.position x.2)
      /\ Forall (fun b => exists nb, Network.nodes net !! b = Some nb
                                    /\ is_pair (Node.position nb))
                (Node.connected_nodes x.2))
    (Network.items net).

(** The nodes are untouched. *)
Definition same_nodes (s s' : Network.t) : Prop :=
  Network.nodes s' = Network.nodes s
  /\ Network.node_order s' = Network.node_order s.

(** Every entry of a [successive] map of [s] stands for an edge of [s0]. *)
Definition wired_from (s0 s : Network.t) : Prop :=
  (forall a n k r,
      Network.nodes s !! a = Some n -> Node.successive n !! k = Some r ->
      exists b, (a, b) ∈ edges s0 /\ k = a +:+ b)
  /\ (forall k l b r,
      Network.lines s !! k = Some l -> Line.successive l !! b = Some r ->
      exists a, (a, b) ∈ edges s0 /\ k = a +:+ b).

(** Every node bears the label it is owned under. *)
Definition labels_match (net : Network.t) : Prop :=
  map_Forall (fun a n => Node.label n = a) (Network.nodes net).

(** No adjacency list names a label twice. *)
Definition adjacency_nodup (net : Network.t) : Prop :=
  map_Forall (fun _ n => NoDup (Node.connected_nodes n)) (Network.nodes net).

(** ** Example topologies *)

Module Examples.

Local Open Scope string_scope.

(** A stand-in for [math.hypot], exact on the right triangles below. *)
Definition hypot (dx dy : float) : float := sqrt (dx * dx + dy * dy).

Definition entry (position : list float) (connected_nodes : list string)
  : Node.node_dict :=
  Node.mk_dict None (Some position) (Some connected_nodes).

Definition network_of (data : list (string * Node.node_dict)) : Network.t :=
  match Network.init data with
  | Val net => net
  | _ => Network.mk ∅ [] ∅
  end.

(** A(0,0), B(0,3), C(4,0) with A<->B and B<->C. *)
Definition abc_data : list (string * Node.node_dict) :=
  [ ("A", entry [0; 0] ["B"]);
    ("B", entry [0; 3] ["A"; "C"]);
    ("C", entry [4; 0] ["B"]) ].

Definition abc_built : Network.t := network_of abc_data.
Definition abc : Network.t := snd (Network.connect hypot abc_built).

(** An adjacency list naming a label that is no entry. *)
Definition dangling_data : list (string * Node.node_dict) :=
  [ ("A", entry [0; 0] ["Z"; "B"]);
    ("B", entry [0; 3] []) ].

Definition dangling : Network.t := network_of dangling_data.

(** Labels whose concatenations collide: "A" + "BC" = "AB" + "C". *)
Definition collide_data : list (string * Node.node_dict) :=
  [ ("A", entry [0; 0] ["BC"]);
    ("AB", entry [0; 1] ["C"]);
    ("BC", entry [0; 3] []);
    ("C", entry [0; 5] []) ].

Definition collide_built : Network.t := network_of collide_data.
Definition collide : Network.t := snd (Network.connect hypot collide_built).

(** A caller's list object at address 1. *)
Definition heap_with (p : list string) : gmap loc (list string) :=
  {[ 1%positive := p ]}.

End Examples.

(** * Properties *)

(** ** Running a computation step by step *)

Lemma bind_val {S A B} (m : M S A) (k : A -> M S B) s a s' :
  m s = (Val a, s') -> bind m k s = k a s'.
Proof. unfold bind. by intros ->. Qed.

Lemma bind_exn {S A B} (m : M S A) (k : A -> M S B) s e s' :
  m s = (Exn e, s') -> bind m k s = (Exn e, s').
Proof. unfold bind. by intros ->. Qed.

Lemma bind_get {S B} (k : S -> M S B) s : bind get k s = k s s.
Proof. reflexivity. Qed.

Lemma bind_modify {S B} (f : S -> S) (k : unit -> M S B) s :
  bind (modify f) k s = k tt (f s).
Proof. reflexivity. Qed.

Lemma bind_inv_val {S A B} (m : M S A) (k : A -> M S B) s b s' :
  bind m k s = (Val b, s') ->
  exists a s1, m s = (Val a, s1) /\ k a s1 = (Val b, s').
Proof.
  unfold bind. destruct (m s) as [[a|e|] s1]; intros H; try done. eauto.
Qed.

Lemma subscript_val {S V} (d : gmap string V) k (s : S) v :
  d !! k = Some v -> subscript d k s = (Val v, s).
Proof. unfold subscript. by intros ->. Qed.

Lemma subscript_inv_val {S V} (d : gmap string V) k (s : S) v s' :
  subscript d k s = (Val v, s') -> d !! k = Some v /\ s' = s.
Proof.
  unfold subscript. destruct (d !! k); unfold ret, raise; intros H;
    by simplify_eq.
Qed.

Lemma unpack2_inv_val {S} p (s : S) xy s' :
  Network.unpack2 p s = (Val xy, s') -> p = [xy.1; xy.2] /\ s' = s.
Proof.
  destruct p as [|x [|y [|z p]]]; simpl; unfold ret, raise; intros H;
    by simplify_eq.
Qed.

(** A loop whose every iteration leaves the state as it is. *)
Lemma for_each_id {S A} (l : list A) (body : A -> M S unit) s :
  (forall x, x ∈ l -> body x s = (Val tt, s)) ->
  for_each l body s = (Val tt, s).
Proof.
  induction l as [|x l IH]; intros Hb; [done|]. simpl.
  rewrite (bind_val _ _ _ _ _ (Hb x (list_elem_of_here _ _))).
  apply IH. intros y Hy. apply Hb. by right.
Qed.

(** ** Computations that move the state along a preorder *)

Section Preserves.

Context {S : Type} (R : S -> S -> Prop) `{!Reflexive R, !Transitive R}.

Lemma preserves_ret {A} (a : A) : preserves R (ret a).
Proof. intros s. reflexivity. Qed.

Lemma preserves_raise {A} e : preserves R (@raise S A e).
Proof. intros s. reflexivity. Qed.

Lemma preserves_stuck {A} : preserves R (@stuck S A).
Proof. intros s. reflexivity. Qed.

Lemma preserves_subscript {V} (d : gmap string V) k :
  preserves R (subscript d k).
Proof.
  unfold subscript.
  destruct (d !! k); [apply preserves_ret | apply preserves_raise].
Qed.

Lemma preserves_unpack2 p : preserves R (Network.unpack2 p).
Proof.
  destruct p as [|x [|y [|z p]]]; simpl;
    first [apply preserves_ret | apply preserves_raise].
Qed.

Lemma preserves_modify f : (forall s, R s (f s)) -> preserves R (modify f).
Proof. intros Hf s. apply Hf. Qed.

Lemma preserves_bind {A B} (m : M S A) (k : A -> M S B) :
  preserves R m -> (forall a, preserves R (k a)) -> preserves R (bind m k).
Proof.
  intros Hm Hk s. unfold bind. specialize (Hm s).
  destruct (m s) as [[a|e|] s']; simpl in *; try done.
  etrans; [exact Hm | apply Hk].
Qed.

(** A computation that reads the state first. *)
Lemma preserves_get_bind {B} (k : S -> M S B) :
  (forall s, R s (k s s).2) -> preserves R (bind get k).
Proof. intros Hk s. apply Hk. Qed.

Lemma preserves_for_each {A} (l : list A) (body : A -> M S unit) :
  (forall x, x ∈ l -> preserves R (body x)) -> preserves R (for_each l body).
Proof.
  induction l as [|x l IH]; intros Hb; simpl.
  - apply preserves_ret.
  - apply preserves_bind; [apply Hb; left | intros _; apply IH].
    intros y Hy. apply Hb. by right.
Qed.

(** What an iteration establishes stays established when the later
    iterations only move the state along [R]. *)
Lemma for_each_establish {A} (Q : A -> S -> Prop) (l : list A)
    (body : A -> M S unit) s0 :
  (forall x, x ∈ l -> preserves R (body x)) ->
  (forall x s1 s2,
      x ∈ l -> R s0 s1 -> body x s1 = (Val tt, s2) -> Q x s2) ->
  (forall x s1 s2, Q x s1 -> R s1 s2 -> Q x s2) ->
  forall s s', R s0 s -> for_each l body s = (Val tt, s') ->
  forall x, x ∈ l -> Q x s'.
Proof.
  intros Hpres Hest Hstable.
  induction l as [|y l IH]; intros s s' Hs Hrun x Hx.
  { by apply elem_of_nil in Hx. }
  simpl in Hrun. apply bind_inv_val in Hrun as ([] & s1 & Hy & Hrest).
  assert (R s s1) as Hs1.
  { specialize (Hpres y (list_elem_of_here _ _) s). by rewrite Hy in Hpres. }
  assert (R s1 s') as Hs'.
  { pose proof (preserves_for_each l body) as Hl.
    specialize (Hl (fun z Hz => Hpres z (list_elem_of_further _ _ _ Hz)) s1).
    by rewrite Hrest in Hl. }
  apply elem_of_cons in Hx as [->|Hx].
  - eapply Hstable; [|exact Hs']. eapply Hest; [left | exact Hs | exact Hy].
  - eapply (IH (fun z Hz => Hpres z (list_elem_of_further _ _ _ Hz))
             (fun z s1 s2 Hz => Hest z s1 s2 (list_elem_of_further _ _ _ Hz))
             s1 s'); [by etrans | done | done].
Qed.

End Preserves.

#[local] Instance keeps_refl {S} (I : S -> Prop) : Reflexive (keeps I).
Proof. intros s H. exact H. Qed.

#[local] Instance keeps_trans {S} (I : S -> Prop) : Transitive (keeps I).
Proof. intros s1 s2 s3 H12 H23 H. apply H23, H12, H. Qed.

(** ** The signal: what propagation leaves alone *)

Section Frame.

Import Signal_information.

#[local] Instance frame_refl : Reflexive frame.
Proof. intros [si h]. by repeat split. Qed.

#[local] Instance frame_trans : Transitive frame.
Proof.
  intros [s1 h1] [s2 h2] [s3 h3] (Hp & Hs & Hh) (Hp' & Hs' & Hh');
    simpl in *.
  repeat split; simpl; try congruence.
  intros l Hl. rewrite Hh' by congruence. by apply Hh.
Qed.

Lemma get_path_run si h p :
  h !! path si = Some p -> get_path (si, h) = (Val p, (si, h)).
Proof. unfold get_path. by intros ->. Qed.

Lemma update_path_run si h x p :
  h !! path si = Some (x :: p) ->
  update_path (si, h) = (Val tt, (si, <[path si := p]> h)).
Proof.
  intros H. unfold update_path.
  by rewrite (bind_val _ _ _ _ _ (get_path_run _ _ _ H)).
Qed.

Lemma frame_get_path : preserves frame get_path.
Proof.
  intros [si h]. unfold get_path. destruct (h !! path si); reflexivity.
Qed.

Lemma frame_update_path : preserves frame update_path.
Proof.
  apply (preserves_bind frame); [apply frame_get_path |].
  intros [|x rest]; [apply (preserves_ret frame) |].
  apply (preserves_modify frame). intros [si h]. repeat split; simpl.
  intros l Hl. by rewrite lookup_insert_ne.
Qed.

Lemma frame_update_latency x : preserves frame (update_latency x).
Proof. apply (preserves_modify frame). intros [si h]. by repeat split. Qed.

Lemma frame_update_noise_power x : preserves frame (update_noise_power x).
Proof. apply (preserves_modify frame). intros [si h]. by repeat split. Qed.

Lemma frame_get_signal_power : preserves frame get_signal_power.
Proof. intros [si h]. reflexivity. Qed.

Lemma frame_propagate nodes lines budget :
  (forall self, preserves frame (Node_propagate nodes lines budget self))
  /\ (forall self, preserves frame (Line_propagate nodes lines budget self)).
Proof.
  induction budget as [|budget [IHn IHl]]; (split; intros self); simpl;
    try apply (preserves_stuck frame).
  - apply (preserves_bind frame); [apply frame_update_path | intros _].
    apply (preserves_bind frame);
      [apply frame_get_path | intros [|next rest]].
    { apply (preserves_ret frame). }
    apply (preserves_bind frame);
      [apply (preserves_subscript frame) | intros [k]].
    destruct (lines !! k); [apply IHl | apply (preserves_stuck frame)].
  - apply (preserves_bind frame); [apply frame_update_latency | intros _].
    apply (preserves_bind frame); [apply frame_get_signal_power | intros P].
    apply (preserves_bind frame);
      [apply frame_update_noise_power | intros _].
    apply (preserves_bind frame);
      [apply frame_get_path | intros [|next rest]].
    { apply (preserves_ret frame). }
    apply (preserves_bind frame);
      [apply (preserves_subscript frame) | intros [k]].
    destruct (nodes !! k); [apply IHn | apply (preserves_stuck frame)].
Qed.

Lemma frame_network_propagate net : preserves frame (Network.propagate net).
Proof.
  unfold Network.propagate.
  apply (preserves_bind frame); [apply frame_get_path | intros [|a rest]].
  - apply (preserves_get_bind frame). intros [si h]. reflexivity.
  - apply (preserves_bind frame);
      [apply (preserves_subscript frame) | intros node].
    apply (preserves_bind frame); [apply frame_propagate | intros _].
    apply (preserves_get_bind frame). intros [si h]. reflexivity.
Qed.

End Frame.

(** ** Walking a path through a network whose references resolve *)

Section Walk.

Import Signal_information.

Variable net : Network.t.
Hypothesis Hrefs : refs_ok net.

(** Along wired hops the walk ends normally, having added each line's
    latency and noise in turn. *)
Lemma walk rest : forall a node si h budget,
  Network.nodes net !! a = Some node ->
  h !! path si = Some (a :: rest) ->
  all_wired net (a :: rest) = true ->
  2 * List.length rest < budget ->
  Node_propagate (Network.nodes net) (Network.lines net) budget node (si, h)
  = (Val tt, (after_walk si (links net (a :: rest)), <[path si := []]> h)).
Proof.
  induction rest as [|b rest IH]; intros a node si h budget Hn Hp Hw Hb.
  - destruct budget as [|budget]; [simpl in Hb; lia|]. simpl.
    rewrite (bind_val _ _ _ _ _ (update_path_run _ _ _ _ Hp)).
    erewrite bind_val by (apply get_path_run, lookup_insert_eq).
    by destruct si.
  - destruct budget as [|[|budget]]; [simpl in Hb; lia..|].
    cbn [all_wired] in Hw. apply andb_prop in Hw as [Hab Hw].
    unfold hop_wired in Hab. cbn [links].
    destruct (link net a b) as [line|] eqn:Hlink; [|done].
    apply bool_decide_eq_true in Hab as [r Hr].
    unfold link in Hlink. rewrite Hn in Hlink.
    destruct (Node.successive node !! (Node.label node +:+ b))
      as [[k]|] eqn:Hs; [|done].
    destruct Hrefs as [_ Hl]. destruct (Hl _ _ _ _ Hlink Hr) as [-> Hdom].
    apply elem_of_dom in Hdom as [nb Hnb].
    cbn [Node_propagate].
    rewrite (bind_val _ _ _ _ _ (update_path_run _ _ _ _ Hp)).
    erewrite bind_val by (apply get_path_run, lookup_insert_eq).
    unfold subscript at 1. rewrite Hs. unfold bind at 1, ret at 1.
    rewrite Hlink. cbn [Line_propagate].
    unfold update_latency at 1, modify at 1, bind at 1.
    unfold get_signal_power at 1, bind at 1.
    unfold update_noise_power at 1, modify at 1, bind at 1.
    erewrite bind_val by (apply get_path_run, lookup_insert_eq).
    unfold subscript at 1. rewrite Hr. unfold bind at 1, ret at 1.
    rewrite Hnb.
    erewrite IH;
      [| exact Hnb | apply lookup_insert_eq | exact Hw | simpl in Hb; lia].
    simpl. rewrite insert_insert_eq. reflexivity.
Qed.

(** At the first hop that is not wired a subscript raises [KeyError]. *)
Lemma walk_unwired rest : forall a node si h budget,
  Network.nodes net !! a = Some node ->
  h !! path si = Some (a :: rest) ->
  all_wired net (a :: rest) = false ->
  2 * List.length rest < budget ->
  exists key w,
    Node_propagate (Network.nodes net) (Network.lines net) budget node
      (si, h)
    = (Exn (KeyError key), w).
Proof.
  induction rest as [|b rest IH]; intros a node si h budget Hn Hp Hw Hb;
    [done|].
  destruct budget as [|[|budget]]; [simpl in Hb; lia..|].
  cbn [Node_propagate].
  rewrite (bind_val _ _ _ _ _ (update_path_run _ _ _ _ Hp)).
  erewrite bind_val by (apply get_path_run, lookup_insert_eq).
  cbn [all_wired] in Hw. unfold hop_wired, link in Hw. rewrite Hn in Hw.
  unfold subscript at 1.
  destruct (Node.successive node !! (Node.label node +:+ b))
    as [[k]|] eqn:Hs.
  2:{ eexists _, _. reflexivity. }
  unfold bind at 1, ret at 1.
  destruct Hrefs as [Hnr Hlr].
  destruct (Hnr _ _ _ _ Hn Hs) as [[= ->] [line Hline]%elem_of_dom].
  rewrite Hline in Hw |- *. cbn [Line_propagate].
  unfold update_latency at 1, modify at 1, bind at 1.
  unfold get_signal_power at 1, bind at 1.
  unfold update_noise_power at 1, modify at 1, bind at 1.
  erewrite bind_val by (apply get_path_run, lookup_insert_eq).
  unfold subscript at 1.
  destruct (Line.successive line !! b) as [[k']|] eqn:Hr.
  2:{ eexists _, _. reflexivity. }
  unfold bind at 1, ret at 1.
  destruct (Hlr _ _ _ _ Hline Hr) as [[= ->] [nb Hnb]%elem_of_dom].
  rewrite Hnb. rewrite bool_decide_eq_true_2 in Hw by eauto. simpl in Hw.
  eapply IH;
    [exact Hnb | apply lookup_insert_eq | exact Hw | simpl in Hb; lia].
Qed.

End Walk.

(** ** [connect]: the writes only add wiring *)

#[local] Instance node_le_refl : Reflexive node_le.
Proof. by intros n. Qed.
#[local] Instance node_le_trans : Transitive node_le.
Proof.
  intros n1 n2 n3 (?&?&?&H12) (?&?&?&H23).
  repeat split; try congruence. auto.
Qed.
#[local] Instance line_le_refl : Reflexive line_le.
Proof. by intros n. Qed.
#[local] Instance line_le_trans : Transitive line_le.
Proof.
  intros n1 n2 n3 (?&?&H12) (?&?&H23).
  repeat split; try congruence. auto.
Qed.

#[local] Instance grows_refl : Reflexive grows.
Proof. intros s. repeat split; intros ? x ?; exists x; by split. Qed.
#[local] Instance grows_trans : Transitive grows.
Proof.
  intros s1 s2 s3 (Ho & Hd & Hn & Hl) (Ho' & Hd' & Hn' & Hl').
  repeat split; try congruence.
  - intros a n H. destruct (Hn _ _ H) as (n2 & H2 & Hle).
    destruct (Hn' _ _ H2) as (n3 & H3 & Hle'). exists n3.
    split; [done | by etrans].
  - intros a n H. destruct (Hl _ _ H) as (n2 & H2 & Hle).
    destruct (Hl' _ _ H2) as (n3 & H3 & Hle'). exists n3.
    split; [done | by etrans].
Qed.

Section Connect_lemmas.

Import Network.

Lemma grows_nodes_inv s s' a n' :
  grows s s' -> nodes s' !! a = Some n' ->
  exists n, nodes s !! a = Some n /\ node_le n n'.
Proof.
  intros (_ & Hd & Hn & _) H.
  assert (a ∈ dom (nodes s)) as [n Hn0]%elem_of_dom.
  { rewrite <- Hd. apply elem_of_dom; eauto. }
  exists n. split; [done|].
  destruct (Hn _ _ Hn0) as (n2 & H2 & Hle). congruence.
Qed.

(** The three writes of [connect] move the network along [grows]. *)
Lemma grows_set_line ab line s :
  ab ∉ dom (lines s) -> grows s (set_line ab line s).2.
Proof.
  intros Hab. split; [|split; [|split]]; simpl; try done.
  - intros a n Hn. by exists n.
  - intros k l Hk. exists l. split; [|done].
    rewrite lookup_insert_ne; [done|]. intros ->. apply Hab, elem_of_dom; eauto.
Qed.

Lemma grows_set_node_successive a ab s :
  grows s (set_node_successive a ab (LineRef ab) s).2.
Proof.
  split; [|split; [|split]]; simpl; try done.
  - by rewrite dom_alter_L.
  - intros a' n Hn. destruct (decide (a = a')) as [->|Hne].
    + rewrite lookup_alter_eq, Hn. simpl. eexists; split; [done|].
      repeat split; simpl. intros k Hk.
      destruct (decide (ab = k)) as [->|];
        [by rewrite lookup_insert_eq | by rewrite lookup_insert_ne].
    + rewrite lookup_alter_ne by done. by exists n.
  - intros k l Hk. by exists l.
Qed.

Lemma grows_set_line_successive ab b s :
  grows s (set_line_successive ab b (NodeRef b) s).2.
Proof.
  split; [|split; [|split]]; simpl; try done.
  - intros a n Hn. by exists n.
  - intros k l Hl. destruct (decide (ab = k)) as [->|Hne].
    + rewrite lookup_alter_eq, Hl. simpl. eexists; split; [done|].
      repeat split; simpl. intros b' Hb'.
      destruct (decide (b = b')) as [->|];
        [by rewrite lookup_insert_eq | by rewrite lookup_insert_ne].
    + rewrite lookup_alter_ne by done. by exists l.
Qed.

Section Connect_grows.
Variable hypot : float -> float -> float.

Lemma grows_create_line a ax ay b :
  preserves grows (create_line hypot a ax ay b).
Proof.
  intros s. unfold create_line, bind, get, subscript.
  destruct (nodes s !! b) as [nb|]; simpl; [|reflexivity].
  destruct (Node.position nb) as [|x [|y [|z p]]]; simpl; try reflexivity.
  case_decide; [reflexivity | by apply grows_set_line].
Qed.

Lemma grows_create_lines : preserves grows (create_lines hypot).
Proof.
  apply (preserves_get_bind grows). intros s0.
  apply (preserves_for_each grows). intros [a na] _.
  apply (preserves_bind grows);
    [apply (preserves_unpack2 grows) | intros [ax ay]].
  apply (preserves_for_each grows). intros b _.
  apply grows_create_line.
Qed.

Lemma grows_wire_edge a b : preserves grows (wire_edge a b).
Proof.
  intros s. unfold wire_edge, bind, get, subscript. simpl.
  destruct (lines s !! (a +:+ b)); simpl; [|reflexivity].
  match goal with |- context [alter ?f a (nodes s) !! b] =>
    destruct (alter f a (nodes s) !! b) eqn:E end; simpl.
  - etrans; [apply (grows_set_node_successive a (a +:+ b) s)|].
    exact (grows_set_line_successive (a +:+ b) b
             (set_node_successive a (a +:+ b) (LineRef (a +:+ b)) s).2).
  - apply (grows_set_node_successive a (a +:+ b) s).
Qed.

Lemma grows_wire : preserves grows wire.
Proof.
  apply (preserves_get_bind grows). intros s0.
  apply (preserves_for_each grows). intros [a na] _.
  apply (preserves_for_each grows). intros b _.
  apply grows_wire_edge.
Qed.

Lemma grows_connect : preserves grows (connect hypot).
Proof.
  apply (preserves_bind grows);
    [apply grows_create_lines | intros _; apply grows_wire].
Qed.
End Connect_grows.

(** ** [connect]: what each loop achieves *)

Lemma elem_of_items s a na :
  (a, na) ∈ items s <-> a ∈ node_order s /\ nodes s !! a = Some na.
Proof.
  unfold items. rewrite list_elem_of_omap. split.
  - intros (k & Hk & Hf).
    destruct (nodes s !! k) as [n|] eqn:E; simplify_eq/=. done.
  - intros [Ha Hn]. exists a. by rewrite Hn.
Qed.

Lemma edge_created_grows s s' a b :
  edge_created s a b -> grows s s' -> edge_created s' a b.
Proof.
  intros [(nb & Hnb & Hp) Hl] (_ & _ & Hn & Hls). split.
  - destruct (Hn _ _ Hnb) as (n' & Hn' & (_ & Hpos & _)). exists n'.
    split; [done | by rewrite Hpos].
  - apply elem_of_dom in Hl as [l Hl]. destruct (Hls _ _ Hl) as (l' & Hl' & _).
    apply elem_of_dom; eauto.
Qed.

Lemma edge_wired_grows s s' a b :
  edge_wired s a b -> grows s s' -> edge_wired s' a b.
Proof.
  intros [(n & Hn & Hs) (l & Hl & Hb)] (_ & _ & Hns & Hls). split.
  - destruct (Hns _ _ Hn) as (n' & Hn' & (_ & _ & _ & Hsucc)). eauto.
  - destruct (Hls _ _ Hl) as (l' & Hl' & (_ & _ & Hsucc)). eauto.
Qed.

Section Connect_post.
Variable hypot : float -> float -> float.

Lemma create_line_post a ax ay b s s' :
  create_line hypot a ax ay b s = (Val tt, s') -> edge_created s' a b.
Proof.
  unfold create_line. intros H.
  rewrite bind_get in H.
  apply bind_inv_val in H as (nb & ? & [Hnb ->]%subscript_inv_val & H).
  apply bind_inv_val in H as ([bx by_] & ? & [Hpos ->]%unpack2_inv_val & H).
  simpl in Hpos. case_decide as Hd.
  - unfold ret in H. simplify_eq. split; [|done]. exists nb.
    split; [done|]. by eexists _, _.
  - unfold set_line, modify in H. simplify_eq. split; simpl.
    + exists nb. split; [done|]. by eexists _, _.
    + rewrite dom_insert_L. set_solver.
Qed.

Lemma create_lines_post s s' :
  create_lines hypot s = (Val tt, s') ->
  forall a na, (a, na) ∈ items s ->
    is_pair (Node.position na)
    /\ forall b, b ∈ Node.connected_nodes na -> edge_created s' a b.
Proof.
  intros H a na Hin. unfold create_lines in H.
  rewrite bind_get in H.
  revert a na Hin.
  assert (forall x, x ∈ items s ->
            is_pair (Node.position x.2) /\
            forall b, b ∈ Node.connected_nodes x.2 -> edge_created s' x.1 b)
    as Hall.
  2:{ intros a na Hin. apply (Hall (a, na) Hin). }
  refine (for_each_establish grows
           (fun x st => is_pair (Node.position x.2) /\
              forall b, b ∈ Node.connected_nodes x.2 -> edge_created st x.1 b)
           (items s) _ s _ _ _ s s' _ H); [| | | reflexivity].
  - intros [a na] _.
    apply (preserves_bind grows);
    [apply (preserves_unpack2 grows) | intros [ax ay]].
    apply (preserves_for_each grows). intros b _. apply grows_create_line.
  - intros [a na] s2 s3 _ _ Hrun. simpl.
    apply bind_inv_val in Hrun
      as ([ax ay] & s4 & [Hpos ->]%unpack2_inv_val & Hrun).
    split; [by eexists _, _|].
    refine (for_each_establish grows (fun b st => edge_created st a b)
             (Node.connected_nodes na) _ s2 _ _ _ s2 s3 _ Hrun);
      [| | | reflexivity].
    + intros b _. apply grows_create_line.
    + intros b s5 s6 _ _. apply create_line_post.
    + intros b s5 s6. apply edge_created_grows.
  - intros [a na] s2 s3 [Hp Hb] Hg. split; [done|].
    intros b Hin. eapply edge_created_grows; eauto.
Qed.

Lemma wire_edge_post a b s s' :
  a ∈ dom (nodes s) -> wire_edge a b s = (Val tt, s') -> edge_wired s' a b.
Proof.
  intros [na Hna]%elem_of_dom. unfold wire_edge. cbv zeta. intros H.
  rewrite bind_get in H.
  apply bind_inv_val in H as (l & ? & [Hl ->]%subscript_inv_val & H).
  unfold set_node_successive at 1 in H. rewrite bind_modify, bind_get in H.
  apply bind_inv_val in H as (nb & ? & [Hnb ->]%subscript_inv_val & H).
  unfold set_line_successive, modify in H. simplify_eq. split; simpl.
  - rewrite lookup_alter_eq, Hna. simpl. eexists. split; [done|]. simpl.
    by rewrite lookup_insert_eq.
  - rewrite lookup_alter_eq, Hl. simpl. eexists. split; [done|]. simpl.
    by rewrite lookup_insert_eq.
Qed.

Lemma wire_post s s' :
  wire s = (Val tt, s') ->
  forall a na, (a, na) ∈ items s ->
    forall b, b ∈ Node.connected_nodes na -> edge_wired s' a b.
Proof.
  intros H. unfold wire in H.
  rewrite bind_get in H.
  assert (forall x, x ∈ items s ->
            forall b, b ∈ Node.connected_nodes x.2 -> edge_wired s' x.1 b)
    as Hall.
  2:{ intros a na Hin. apply (Hall (a, na) Hin). }
  refine (for_each_establish grows
           (fun x st =>
              forall b, b ∈ Node.connected_nodes x.2 -> edge_wired st x.1 b)
           (items s) _ s _ _ _ s s' _ H); [| | | reflexivity].
  - intros [a na] _. apply (preserves_for_each grows). intros b _.
    apply grows_wire_edge.
  - intros [a na] s2 s3 Hin Hg Hrun. simpl.
    refine (for_each_establish grows (fun b st => edge_wired st a b)
             (Node.connected_nodes na) _ s2 _ _ _ s2 s3 _ Hrun);
      [| | | reflexivity].
    + intros b _. apply grows_wire_edge.
    + intros b s5 s6 _ Hg'. apply wire_edge_post.
      apply elem_of_items in Hin as [_ Hin].
      destruct Hg as (_ & _ & Hn & _). destruct (Hn _ _ Hin) as (n2 & Hn2 & _).
      destruct Hg' as (_ & _ & Hn' & _).
      destruct (Hn' _ _ Hn2) as (n3 & Hn3 & _).
      apply elem_of_dom; eauto.
    + intros b s5 s6. apply edge_wired_grows.
  - intros [a na] s2 s3 Hb Hg b Hin. eapply edge_wired_grows; eauto.
Qed.

Lemma items_grows s s' a na' :
  grows s s' -> (a, na') ∈ items s' ->
  exists na, (a, na) ∈ items s /\ node_le na na'.
Proof.
  intros Hg [Ho Hn]%elem_of_items.
  destruct (grows_nodes_inv _ _ _ _ Hg Hn) as (na & Hna & Hle).
  exists na. split; [|done]. apply elem_of_items. split; [|done].
  destruct Hg as (Hord & _). by rewrite <- Hord.
Qed.

Lemma connect_post s s' : connect hypot s = (Val tt, s') -> connected s'.
Proof.
  unfold connect. intros H.
  apply bind_inv_val in H as ([] & s1 & Hc & Hw).
  pose proof (grows_create_lines hypot s) as Hg1. rewrite Hc in Hg1.
  pose proof (grows_wire s1) as Hg2. rewrite Hw in Hg2. simpl in *.
  intros a na' Hin.
  destruct (items_grows _ _ _ _ Hg2 Hin) as (na1 & Hin1 & Hle1).
  destruct (items_grows _ _ _ _ Hg1 Hin1) as (na & Hin0 & Hle0).
  destruct (create_lines_post _ _ Hc _ _ Hin0) as [Hp Hb].
  destruct Hle1 as (_ & Hpos1 & Hcn1 & _).
  destruct Hle0 as (_ & Hpos0 & Hcn0 & _).
  split; [by rewrite Hpos1, Hpos0|].
  intros b Hbin. rewrite Hcn1 in Hbin. split.
  - eapply edge_created_grows; [|exact Hg2]. apply Hb. by rewrite <- Hcn0.
  - eapply wire_post; eauto.
Qed.
End Connect_post.

(** ** [connect] on a network that is already connected *)

Lemma set_node_successive_id a ab r s n :
  nodes s !! a = Some n -> Node.successive n !! ab = Some r ->
  set_node_successive a ab r s = (Val tt, s).
Proof.
  intros Hn Hr. unfold set_node_successive, modify. f_equal.
  destruct s as [ns o ls]; simpl in *. f_equal.
  apply alter_id. intros n' Hn'. rewrite Hn in Hn'. injection Hn' as <-.
  destruct n as [l p c su]; simpl in *.
  f_equal. by apply insert_id.
Qed.

Lemma set_line_successive_id ab b r s l :
  lines s !! ab = Some l -> Line.successive l !! b = Some r ->
  set_line_successive ab b r s = (Val tt, s).
Proof.
  intros Hl Hr. unfold set_line_successive, modify. f_equal.
  destruct s as [ns o ls]; simpl in *. f_equal.
  apply alter_id. intros l' Hl'. rewrite Hl in Hl'. injection Hl' as <-.
  destruct l as [la le su]; simpl in *.
  f_equal. by apply insert_id.
Qed.

Section Connect_id.
Variable hypot : float -> float -> float.

Lemma create_line_id a ax ay b s :
  edge_created s a b -> create_line hypot a ax ay b s = (Val tt, s).
Proof.
  intros [(nb & Hnb & (bx & by_ & Hpos)) Hdom]. unfold create_line.
  rewrite bind_get. rewrite (bind_val _ _ _ _ _ (subscript_val _ _ _ _ Hnb)).
  rewrite Hpos. simpl. unfold bind at 1, ret at 1. by rewrite decide_True.
Qed.

Lemma wire_edge_id a b s :
  edge_created s a b -> edge_wired s a b -> wire_edge a b s = (Val tt, s).
Proof.
  intros [(nb & Hnb & _) _] [(n & Hn & Hs) (l & Hl & Hb)].
  unfold wire_edge. cbv zeta.
  rewrite bind_get. rewrite (bind_val _ _ _ _ _ (subscript_val _ _ _ _ Hl)).
  rewrite (bind_val _ _ _ _ _ (set_node_successive_id _ _ _ _ _ Hn Hs)).
  rewrite bind_get. rewrite (bind_val _ _ _ _ _ (subscript_val _ _ _ _ Hnb)).
  by eapply set_line_successive_id.
Qed.

Lemma connect_id s : connected s -> connect hypot s = (Val tt, s).
Proof.
  intros Hc. unfold connect.
  assert (create_lines hypot s = (Val tt, s)) as Hcreate.
  { unfold create_lines. rewrite bind_get. apply for_each_id.
    intros [a na] Hin. destruct (Hc _ _ Hin) as [(x & y & Hpos) Hb].
    rewrite Hpos. simpl. unfold bind at 1, ret at 1. apply for_each_id.
    intros b Hbin. apply create_line_id. by apply Hb. }
  rewrite (bind_val _ _ _ _ _ Hcreate).
  unfold wire. rewrite bind_get. apply for_each_id.
  intros [a na] Hin. destruct (Hc _ _ Hin) as [_ Hb].
  apply for_each_id. intros b Hbin. apply wire_edge_id; by apply Hb.
Qed.

End Connect_id.

End Connect_lemmas.

(** ** [connect] keeps every reference resolvable *)

Section Refs.

Import Network.

Lemma refs_ok_set_line ab len s :
  keeps refs_ok s (set_line ab (Line.init ab len) s).2.
Proof.
  intros [Hn Hl]. split; simpl.
  - intros a n k r Ha Hk. pose proof (Hn _ _ _ _ Ha Hk) as [Hr Hd].
    split; [done|]. rewrite dom_insert_L. apply elem_of_union. by right.
  - intros k l b r Hk Hb. destruct (decide (ab = k)) as [->|Hne].
    + rewrite lookup_insert_eq in Hk. by simplify_eq.
    + rewrite lookup_insert_ne in Hk by done. eauto.
Qed.

Lemma refs_ok_set_node_successive a ab s :
  ab ∈ dom (lines s) ->
  keeps refs_ok s (set_node_successive a ab (LineRef ab) s).2.
Proof.
  intros Hab [Hn Hl]. split; simpl.
  - intros a' n k r Ha Hk. destruct (decide (a = a')) as [->|Hne].
    + rewrite lookup_alter_eq in Ha.
      destruct (nodes s !! a') as [n0|] eqn:E; simplify_eq/=.
      destruct (decide (ab = k)) as [->|Hne].
      * rewrite lookup_insert_eq in Hk. by simplify_eq.
      * rewrite lookup_insert_ne in Hk by done. eauto.
    + rewrite lookup_alter_ne in Ha by done. eauto.
  - intros k l b r Hk Hb. pose proof (Hl _ _ _ _ Hk Hb) as [Hr Hd].
    split; [done|]. by rewrite dom_alter_L.
Qed.

Lemma refs_ok_set_line_successive ab b s :
  b ∈ dom (nodes s) ->
  keeps refs_ok s (set_line_successive ab b (NodeRef b) s).2.
Proof.
  intros Hb [Hn Hl]. split; simpl.
  - intros a n k r Ha Hk. pose proof (Hn _ _ _ _ Ha Hk) as [Hr Hd].
    split; [done|]. by rewrite dom_alter_L.
  - intros k l b' r Hk Hb'. destruct (decide (ab = k)) as [->|Hne].
    + rewrite lookup_alter_eq in Hk.
      destruct (lines s !! k) as [l0|] eqn:E; simplify_eq/=.
      destruct (decide (b = b')) as [->|Hne].
      * rewrite lookup_insert_eq in Hb'. by simplify_eq.
      * rewrite lookup_insert_ne in Hb' by done. eauto.
    + rewrite lookup_alter_ne in Hk by done. eauto.
Qed.

Variable hypot : float -> float -> float.

Lemma refs_ok_create_line a ax ay b :
  preserves (keeps refs_ok) (create_line hypot a ax ay b).
Proof.
  intros s. unfold create_line, bind, get, subscript.
  destruct (nodes s !! b) as [nb|]; simpl; [|reflexivity].
  destruct (Node.position nb) as [|x [|y [|z p]]]; simpl; try reflexivity.
  case_decide; [reflexivity | apply refs_ok_set_line].
Qed.

Lemma refs_ok_wire_edge a b : preserves (keeps refs_ok) (wire_edge a b).
Proof.
  intros s. unfold wire_edge, bind, get, subscript. simpl.
  destruct (lines s !! (a +:+ b)) as [l|] eqn:El; simpl; [|reflexivity].
  assert ((a +:+ b) ∈ dom (lines s)) as Hd by (apply elem_of_dom; eauto).
  match goal with |- context [alter ?f a (nodes s) !! b] =>
    destruct (alter f a (nodes s) !! b) eqn:E end; simpl.
  - etrans; [apply (refs_ok_set_node_successive a (a +:+ b) s Hd)|].
    refine (refs_ok_set_line_successive (a +:+ b) b
             (set_node_successive a (a +:+ b) (LineRef (a +:+ b)) s).2 _).
    simpl. apply elem_of_dom; eauto.
  - apply (refs_ok_set_node_successive a (a +:+ b) s Hd).
Qed.

Lemma refs_ok_connect : preserves (keeps refs_ok) (connect hypot).
Proof.
  apply (preserves_bind (keeps refs_ok)); [|intros _].
  - apply (preserves_get_bind (keeps refs_ok)). intros s0.
    apply (preserves_for_each (keeps refs_ok)). intros [a na] _.
    apply (preserves_bind (keeps refs_ok));
      [apply (preserves_unpack2 (keeps refs_ok)) | intros [ax ay]].
    apply (preserves_for_each (keeps refs_ok)). intros b _.
    apply refs_ok_create_line.
  - apply (preserves_get_bind (keeps refs_ok)). intros s0.
    apply (preserves_for_each (keeps refs_ok)). intros [a na] _.
    apply (preserves_for_each (keeps refs_ok)). intros b _.
    apply refs_ok_wire_edge.
Qed.

Lemma fresh_network_refs_ok s : fresh_network s -> refs_ok s.
Proof.
  intros (Hl & Hs & _). split.
  - intros a n k r Ha Hk. rewrite (Hs _ _ Ha) in Hk.
    by rewrite lookup_empty in Hk.
  - intros k l b r Hk. rewrite Hl in Hk. by rewrite lookup_empty in Hk.
Qed.

(** [connect] has no failure but the exceptions of its subscripts and
    unpackings. *)
Lemma for_each_not_stuck {S A} (l : list A) (body : A -> M S unit) :
  (forall x s, (body x s).1 <> Stuck) ->
  forall s, (for_each l body s).1 <> Stuck.
Proof.
  intros Hb. induction l as [|x l IH]; intros s; [done|]. simpl.
  unfold bind. specialize (Hb x s).
  destruct (body x s) as [[[]|e|] s1]; simpl in *; [apply IH | done | done].
Qed.

Lemma create_line_not_stuck a ax ay b s :
  (create_line hypot a ax ay b s).1 <> Stuck.
Proof.
  unfold create_line, bind, get, subscript.
  destruct (nodes s !! b) as [nb|]; simpl; [|done].
  destruct (Node.position nb) as [|x [|y [|z p]]]; simpl; try done.
  by case_decide.
Qed.

Lemma wire_edge_not_stuck a b s : (wire_edge a b s).1 <> Stuck.
Proof.
  unfold wire_edge, bind, get, subscript. simpl.
  destruct (lines s !! (a +:+ b)) as [l|]; simpl; [|done].
  match goal with |- context [alter ?f a (nodes s) !! b] =>
    by destruct (alter f a (nodes s) !! b) end.
Qed.

Lemma connect_not_stuck s : (connect hypot s).1 <> Stuck.
Proof.
  unfold connect, bind.
  destruct (create_lines hypot s) as [[[]|e|] s1] eqn:Hc; simpl; [|done|].
  - unfold wire. rewrite bind_get. apply for_each_not_stuck.
    intros [a na] s2. apply for_each_not_stuck. intros b s3.
    apply wire_edge_not_stuck.
  - exfalso. cut ((create_lines hypot s).1 <> Stuck); [by rewrite Hc|].
    unfold create_lines. rewrite bind_get. apply for_each_not_stuck.
    intros [a na] s2. unfold bind.
    destruct (Node.position na) as [|x [|y [|z p]]]; simpl; try done.
    apply for_each_not_stuck. intros b s3. apply create_line_not_stuck.
Qed.

End Refs.

(** ** [__init__]: one node per entry *)

Section Init.

Import Network.

#[local] Instance well_formed_entry_dec nd : Decision (well_formed_entry nd).
Proof. unfold well_formed_entry. apply _. Defined.

Lemma init_entry_val label nd s :
  well_formed_entry nd ->
  init_entry (label, nd) s = (Val tt, (set_node label (node_of label nd) s).2).
Proof.
  intros [[p Hp] [c Hc]].
  unfold init_entry, Node.init, setdefault_label, node_of.
  simpl. rewrite Hp, Hc. by destruct (Node.d_label nd).
Qed.

Lemma init_entry_exn label nd s :
  ~ well_formed_entry nd ->
  exists key, init_entry (label, nd) s = (Exn (KeyError key), s)
              /\ (key = "position" \/ key = "connected_nodes")%string.
Proof.
  intros Hwf. unfold init_entry, Node.init, setdefault_label. simpl.
  destruct (Node.d_position nd) as [p|] eqn:Hp.
  - destruct (Node.d_connected_nodes nd) as [c|] eqn:Hc.
    + destruct Hwf. unfold well_formed_entry. rewrite Hp, Hc. eauto.
    + exists "connected_nodes"%string. split; [|by right].
      by destruct (Node.d_label nd).
  - exists "position"%string. split; [|by left]. by destruct (Node.d_label nd).
Qed.

(** The loop stops with [KeyError] at the first entry lacking a field. *)
Lemma init_loop_exn data : forall s,
  Exists (fun e => ~ well_formed_entry e.2) data ->
  exists key s', init_loop data s = (Exn (KeyError key), s')
                 /\ (key = "position" \/ key = "connected_nodes")%string.
Proof.
  induction data as [|[label nd] data IH]; intros s Hex;
    [by apply Exists_nil in Hex|].
  change (init_loop ((label, nd) :: data))
    with (init_entry (label, nd);; init_loop data).
  destruct (decide (well_formed_entry nd)) as [Hwf|Hwf].
  - rewrite (bind_val _ _ _ _ _ (init_entry_val label nd s Hwf)).
    apply IH. apply Exists_cons in Hex as [Hex|Hex]; [done|exact Hex].
  - destruct (init_entry_exn label nd s Hwf) as (key & Hrun & Hkey).
    exists key, s. split; [|done]. by rewrite (bind_exn _ _ _ _ _ Hrun).
Qed.

Lemma init_loop_val data : forall s,
  Forall (fun e => well_formed_entry e.2) data ->
  NoDup data.*1 ->
  (forall k, k ∈ data.*1 -> k ∉ node_order s) ->
  exists s', init_loop data s = (Val tt, s')
    /\ lines s' = lines s
    /\ node_order s' = node_order s ++ data.*1
    /\ (forall k nd, (k, nd) ∈ data -> nodes s' !! k = Some (node_of k nd))
    /\ (forall k, k ∉ data.*1 -> nodes s' !! k = nodes s !! k).
Proof.
  induction data as [|[label nd] data IH]; intros s Hwf Hnd Hfresh.
  { exists s. repeat split; simpl; try done.
    - by rewrite app_nil_r.
    - intros k nd H. by apply elem_of_nil in H. }
  apply Forall_cons in Hwf as [Hwf1 Hwf]. simpl in Hnd.
  apply NoDup_cons in Hnd as [Hnotin Hnd].
  change (init_loop ((label, nd) :: data))
    with (init_entry (label, nd);; init_loop data).
  rewrite (bind_val _ _ _ _ _ (init_entry_val label nd s Hwf1)).
  set (s1 := (set_node label (node_of label nd) s).2).
  assert (node_order s1 = node_order s ++ [label]) as Hord.
  { simpl. rewrite decide_False; [done|]. apply Hfresh. simpl. left. }
  destruct (IH s1 Hwf Hnd) as (s' & Hrun & Hl & Ho & Hin & Hout).
  { intros k Hk. rewrite Hord. intros [Hk'|Hk']%elem_of_app.
    - eapply Hfresh; [|exact Hk']. simpl. by right.
    - apply list_elem_of_singleton in Hk' as ->. done. }
  exists s'. split; [done|]. split; [by rewrite Hl|].
  split; [rewrite Ho, Hord; by rewrite <- app_assoc|]. split.
  - intros k nd' [Heq|Hk]%elem_of_cons.
    + simplify_eq. rewrite Hout by done. simpl. by rewrite lookup_insert_eq.
    + by apply Hin.
  - intros k Hk. simpl in Hk. apply not_elem_of_cons in Hk as [Hne Hk].
    rewrite Hout by done. simpl. by rewrite lookup_insert_ne.
Qed.

(** Whatever the entries, a network that [__init__] returns has no line and
    no wiring yet. *)
Lemma fresh_network_set_node label node s :
  Node.successive node = ∅ ->
  keeps fresh_network s (set_node label node s).2.
Proof.
  intros Hsucc (Hl & Hs & Hnd & Hdom). repeat split; simpl; try done.
  - intros a n. destruct (decide (label = a)) as [->|Hne].
    + rewrite lookup_insert_eq. by intros [= <-].
    + rewrite lookup_insert_ne by done. apply Hs.
  - case_decide; [done|]. apply NoDup_app. split; [done|].
    split; [|apply NoDup_singleton].
    by intros x Hx ->%list_elem_of_singleton.
  - rewrite dom_insert_L. intros Ha. apply elem_of_union. case_decide.
    + right. by apply Hdom.
    + apply elem_of_app in Ha as [Ha|Ha%list_elem_of_singleton].
      * right. by apply Hdom.
      * left. by apply elem_of_singleton.
  - rewrite dom_insert_L. intros [->%elem_of_singleton|Ha]%elem_of_union.
    + case_decide; [done|]. apply elem_of_app. right. by left.
    + apply Hdom in Ha. case_decide; [done|]. apply elem_of_app. by left.
Qed.

Lemma fresh_network_init_entry e :
  preserves (keeps fresh_network) (init_entry e).
Proof.
  destruct e as [label nd]. intros s.
  unfold init_entry, Node.init, setdefault_label, bind, Node.field. simpl.
  destruct (Node.d_label nd); simpl;
    (destruct (Node.d_position nd); simpl; [|reflexivity]);
    (destruct (Node.d_connected_nodes nd); simpl; [|reflexivity]);
    by apply fresh_network_set_node.
Qed.

Lemma init_fresh data net : init data = Val net -> fresh_network net.
Proof.
  unfold init. intros H.
  pose proof (preserves_for_each (keeps fresh_network) data init_entry
                (fun e _ => fresh_network_init_entry e) (mk ∅ [] ∅)) as Hk.
  fold (init_loop data) in Hk.
  destruct (init_loop data (mk ∅ [] ∅)) as [[[]|e|] s]; simplify_eq.
  apply Hk. repeat split; simpl; try done.
  - apply NoDup_nil_2.
  - by intros ?%elem_of_nil.
Qed.

End Init.

(** ** [find_paths]: the depth-first search *)

Lemma NoDup_length_le_size {V} (m : gmap string V) (l : list string) :
  NoDup l -> Forall (fun x => x ∈ dom m) l -> List.length l <= size m.
Proof.
  intros Hnd Hall.
  rewrite <- size_dom, <- (size_list_to_set (C:=gset string) l Hnd).
  apply subseteq_size. intros x Hx%elem_of_list_to_set.
  rewrite Forall_forall in Hall. by apply Hall.
Qed.

Section Dfs.

Import Network.

Variable net : Network.t.
Variable end_ : string.
Hypothesis Hclosed : adjacency_closed net.

(** Arrived at [end_], the path itself is the one continuation. *)
Lemma extends_end path q :
  last path = Some end_ -> NoDup path ->
  q ∈ [path] <-> extends net end_ path end_ q.
Proof.
  intros Hlast Hnd. rewrite list_elem_of_singleton. split.
  - intros ->. exists []. by rewrite app_nil_r.
  - intros (ext & -> & Hq & _ & Hl).
    destruct ext as [|e ext]; [by rewrite app_nil_r|].
    exfalso. apply NoDup_app in Hq as (_ & Hdisj & _).
    apply (Hdisj end_).
    + apply last_Some in Hlast as [l' ->]. set_solver.
    + change (last (end_ :: e :: ext)) with (last (e :: ext)) in Hl.
      apply last_Some in Hl as [l' ->]. set_solver.
Qed.

(** Elsewhere, a continuation goes through a neighbour not yet on the
    path. *)
Lemma extends_step path curr node q :
  curr <> end_ -> nodes net !! curr = Some node ->
  extends net end_ path curr q <->
  exists nxt, nxt ∈ Node.connected_nodes node /\ (nxt ∉ path)
              /\ extends net end_ (path ++ [nxt]) nxt q.
Proof.
  intros Hne Hnode. split.
  - intros (ext & -> & Hq & Hch & Hl). destruct ext as [|nxt ext].
    { simpl in Hl. congruence. }
    exists nxt. destruct Hch as [(n & Hn & Hin) Hch]. simplify_eq.
    split; [done|]. split.
    + apply NoDup_app in Hq as (_ & Hdisj & _). intros Hp.
      apply (Hdisj _ Hp). left.
    + exists ext. rewrite <- app_assoc. done.
  - intros (nxt & Hin & Hnotin & (ext & -> & Hq & Hch & Hl)).
    exists (nxt :: ext). rewrite <- app_assoc in *.
    split; [done|]. split; [done|].
    split; [|done]. split; [|done]. by exists node.
Qed.

(** The search returns, having appended exactly the continuations of its
    path; the budget is never used up because a path without repetition is
    no longer than the number of nodes. *)
Lemma dfs_spec budget : forall curr path ps,
  last path = Some curr -> NoDup path ->
  Forall (fun x => x ∈ dom (nodes net)) path ->
  size (nodes net) < budget + List.length path ->
  exists new, dfs net end_ budget curr path ps = (Val tt, ps ++ new)
              /\ forall q, q ∈ new <-> extends net end_ path curr q.
Proof.
  induction budget as [|budget IH]; intros curr path ps Hlast Hnd Hdom Hsize.
  { pose proof (NoDup_length_le_size _ _ Hnd Hdom). simpl in Hsize. lia. }
  cbn [dfs]. destruct (decide (curr = end_)) as [->|Hne].
  { exists [path]. split; [done|]. intros q. by apply extends_end. }
  assert (curr ∈ dom (nodes net)) as [node Hnode]%elem_of_dom.
  { rewrite Forall_forall in Hdom. apply Hdom.
    apply last_Some in Hlast as [l' ->]. set_solver. }
  rewrite (bind_val _ _ _ _ _ (subscript_val _ _ _ _ Hnode)).
  assert (forall l, l ⊆ Node.connected_nodes node -> forall ps,
    exists new,
      for_each l (fun nxt => if decide (nxt ∈ path) then ret tt
                             else dfs net end_ budget nxt (path ++ [nxt])) ps
      = (Val tt, ps ++ new)
      /\ forall q, q ∈ new <->
           exists nxt, nxt ∈ l /\ (nxt ∉ path)
                       /\ extends net end_ (path ++ [nxt]) nxt q)
    as Hloop.
  { clear ps. induction l as [|nxt l IHl]; intros Hsub ps.
    { exists []. split; [by rewrite app_nil_r|]. intros q. split.
      - by intros ?%elem_of_nil.
      - intros (nxt & ?%elem_of_nil & _). done. }
    assert (nxt ∈ Node.connected_nodes node) as Hin by (apply Hsub; left).
    assert (l ⊆ Node.connected_nodes node) as Hsub' by set_solver.
    cbn [for_each]. destruct (decide (nxt ∈ path)) as [Hp|Hp].
    - rewrite (bind_val _ _ ps tt ps) by done.
      destruct (IHl Hsub' ps) as (new & Hrun & Hnew). exists new.
      split; [done|]. intros q. rewrite Hnew. split.
      + intros (x & ? & ? & ?). exists x. split; [by right | done].
      + intros (x & [->|?]%elem_of_cons & ? & ?); [done|]. by exists x.
    - destruct (IH nxt (path ++ [nxt]) ps) as (new1 & Hrun1 & Hnew1).
      + apply last_snoc.
      + apply NoDup_app. split; [done|]. split; [|apply NoDup_singleton].
        intros x Hx ->%list_elem_of_singleton. done.
      + apply Forall_app. split; [done|]. apply Forall_singleton.
        pose proof (Hclosed curr node Hnode) as Hall. simpl in Hall.
        rewrite Forall_forall in Hall. by apply Hall.
      + rewrite length_app. simpl. lia.
      + rewrite (bind_val _ _ _ _ _ Hrun1).
        destruct (IHl Hsub' (ps ++ new1)) as (new2 & Hrun2 & Hnew2).
        exists (new1 ++ new2). split; [by rewrite app_assoc|].
        intros q. rewrite elem_of_app, Hnew1, Hnew2. split.
        * intros [H|(x & ? & ? & ?)]; [exists nxt; split; [left|done] |].
          exists x. split; [by right|done].
        * intros (x & [->|?]%elem_of_cons & ? & ?); [by left|].
          right. by exists x. }
  destruct (Hloop _ (reflexivity _) ps) as (new & Hrun & Hnew).
  exists new. split; [done|]. intros q. rewrite Hnew. symmetry.
  by apply extends_step.
Qed.

(** In a closed network a chain from a node of the network stays in it. *)
Lemma chain_in_network p : forall a,
  a ∈ dom (nodes net) -> chain net (a :: p) ->
  Forall (fun x => x ∈ dom (nodes net)) (a :: p).
Proof.
  induction p as [|b p IH]; intros a Ha Hch.
  { by apply Forall_singleton. }
  destruct Hch as [(n & Hn & Hb) Hch]. apply Forall_cons. split; [done|].
  apply IH; [|done]. pose proof (Hclosed a n Hn) as Hall. simpl in Hall.
  rewrite Forall_forall in Hall. by apply Hall.
Qed.

(** The continuations of the one-node path are the simple paths. *)
Lemma extends_simple_path start q :
  start ∈ dom (nodes net) ->
  extends net end_ [start] start q <-> simple_path net start end_ q.
Proof.
  intros Hs. split.
  - intros (ext & -> & Hnd & Hch & Hl). repeat split; try done.
    by apply chain_in_network.
  - intros (Hh & Hl & Hnd & Hall & Hch). destruct q as [|a ext]; [done|].
    simpl in Hh. injection Hh as ->. by exists ext.
Qed.

End Dfs.

(** ** The budgets are never used up *)

(** The search never runs out of budget, in any network: all nodes of its
    path but the last are nodes of the network, and none is repeated. *)
Lemma dfs_not_stuck net end_ budget : forall curr pre ps,
  NoDup (pre ++ [curr]) ->
  Forall (fun x => x ∈ dom (Network.nodes net)) pre ->
  size (Network.nodes net) < budget + List.length pre ->
  (Network.dfs net end_ budget curr (pre ++ [curr]) ps).1 <> Stuck.
Proof.
  induction budget as [|budget IH]; intros curr pre ps Hnd Hdom Hsize.
  { apply NoDup_app in Hnd as (Hnd & _).
    pose proof (NoDup_length_le_size _ _ Hnd Hdom). simpl in Hsize. lia. }
  cbn [Network.dfs]. destruct (decide (curr = end_)) as [->|Hne]; [done|].
  unfold subscript at 1.
  destruct (Network.nodes net !! curr) as [node|] eqn:Hnode; [|done].
  unfold bind at 1, ret at 1. apply for_each_not_stuck. intros nxt ps'.
  destruct (decide (nxt ∈ pre ++ [curr])) as [Hin|Hin]; [done|].
  apply IH.
  - apply NoDup_app. split; [done|]. split; [|apply NoDup_singleton].
    by intros x Hx ->%list_elem_of_singleton.
  - apply Forall_app. split; [done|]. apply Forall_singleton.
    apply elem_of_dom. eauto.
  - rewrite length_app. simpl. lia.
Qed.

Lemma find_paths_not_stuck net start end_ :
  Network.find_paths net start end_ <> Stuck.
Proof.
  unfold Network.find_paths. case_decide; [done|].
  assert (size (Network.nodes net)
          < S (size (Network.nodes net)) + List.length (@nil string))
    as Hsize by (simpl; lia).
  pose proof (dfs_not_stuck net end_ (S (size (Network.nodes net))) start
                [] [] (NoDup_singleton _) (Forall_nil_2 _) Hsize) as Hns.
  change ([] ++ [start]) with [start] in Hns.
  by destruct (Network.dfs net end_ (S (size (Network.nodes net))) start
                 [start] []) as [[[]|e|] ps].
Qed.

(** Nor does propagation, over a network whose references resolve, for a
    signal whose path is a list object. *)
Lemma propagate_not_stuck net si h p :
  refs_ok net -> h !! Signal_information.path si = Some p ->
  (Network.propagate net (si, h)).1 <> Stuck.
Proof.
  intros Hrefs Hp. unfold Network.propagate.
  rewrite (bind_val _ _ _ _ _ (get_path_run _ _ _ Hp)).
  destruct p as [|x rest]; [done|]. unfold subscript at 1.
  destruct (Network.nodes net !! x) as [node|] eqn:Hnode; [|done].
  unfold bind at 1, ret at 1.
  assert (2 * List.length rest < 2 * List.length (x :: rest))
    as Hbudget by (simpl; lia).
  destruct (all_wired net (x :: rest)) eqn:Hw.
  - by rewrite (bind_val _ _ _ _ _
                  (walk net Hrefs rest x node si h _ Hnode Hp Hw Hbudget)).
  - destruct (walk_unwired net Hrefs rest x node si h _ Hnode Hp Hw Hbudget)
      as (key & w & Hrun).
    by rewrite (bind_exn _ _ _ _ _ Hrun).
Qed.

(** * The properties of the specification *)

(** The speed used by [latency_generation], two thirds of [3e8], is the
    float [2e8]. *)
Lemma fibre_speed : ((2 / 3) * 3e8 = 2e8)%float.
Proof. reflexivity. Qed.

(** C2: for every line and every power [P] (in particular for non-negative
    length and power), [latency_generation] returns exactly
    [length / ((2/3) * 3e8)] and [noise_generation P] returns exactly
    [1e-9 * P * length], in the arithmetic of floats; the length of a line
    made by [Line(label, length)] is the length given. *)
Theorem line_generation_exact (line : Line.t) (label : string)
    (length P : float) :
  Line.latency_generation line = (Line.length line / ((2 / 3) * 3e8))%float
  /\ Line.noise_generation line P = (1e-9 * P * Line.length line)%float
  /\ Line.length (Line.init label length) = length.
Proof. repeat split. Qed.

(** For an infinite power over a line of length zero the noise is not a
    number, which Python's [==] tells apart from itself. *)
Example noise_not_a_number :
  Line.noise_generation (Line.init "AB" 0) infinity = nan.
Proof. reflexivity. Qed.

(** C8: in a topology containing node [a], [find_paths(a, a)] returns the
    single trivial path [[a]], whatever the adjacency lists. *)
Theorem find_paths_trivial (net : Network.t) (a : string) :
  a ∈ dom (Network.nodes net) -> Network.find_paths net a a = Val [[a]].
Proof.
  intros Ha. unfold Network.find_paths.
  rewrite decide_False by tauto. simpl.
  rewrite decide_True by done. reflexivity.
Qed.

Lemma find_paths_trivial_witness :
  "A" ∈ dom (Network.nodes Examples.abc)
  /\ Network.find_paths Examples.abc "A" "A" = Val [["A"]].
Proof.
  assert ("A" ∈ dom (Network.nodes Examples.abc)) as Ha.
  { apply elem_of_dom. vm_compute. eexists. reflexivity. }
  split; [exact Ha | exact (find_paths_trivial Examples.abc "A" Ha)].
Defined.

(** At the last node of a path the signal is consumed and nothing else
    happens. *)
Lemma node_propagate_last nodes lines budget node si h a :
  h !! Signal_information.path si = Some [a] ->
  Node_propagate nodes lines (S budget) node (si, h)
  = (Val tt, (si, <[Signal_information.path si := []]> h)).
Proof.
  intros Hp. cbn [Node_propagate].
  rewrite (bind_val _ _ _ _ _ (update_path_run _ _ _ _ Hp)).
  by erewrite bind_val by (apply get_path_run, lookup_insert_eq).
Qed.

(** C7: a signal whose path is a single node of the topology makes no hop:
    [propagate] returns the signal with power, noise and latency as they
    were, and the only change is that the path list becomes empty. *)
Theorem propagate_single_node (net : Network.t)
    (si : Signal_information.t) (h : gmap loc (list string)) (a : string) :
  h !! Signal_information.path si = Some [a] ->
  a ∈ dom (Network.nodes net) ->
  Network.propagate net (si, h)
  = (Val si, (si, <[Signal_information.path si := []]> h)).
Proof.
  intros Hp [node Hn]%elem_of_dom.
  unfold Network.propagate.
  rewrite (bind_val _ _ _ _ _ (get_path_run _ _ _ Hp)).
  rewrite (bind_val _ _ _ _ _ (subscript_val _ _ _ _ Hn)).
  change (2 * List.length [a])%nat with 2%nat.
  by rewrite (bind_val _ _ _ _ _
                (node_propagate_last _ _ 1 node si h a Hp)).
Qed.

Lemma propagate_single_node_witness :
  let si := Signal_information.mk 1 0 0 1%positive in
  let h := Examples.heap_with ["B"] in
  h !! Signal_information.path si = Some ["B"]
  /\ "B" ∈ dom (Network.nodes Examples.abc)
  /\ Network.propagate Examples.abc (si, h)
     = (Val si, (si, <[Signal_information.path si := []]> h)).
Proof.
  intros si h.
  assert (h !! Signal_information.path si = Some ["B"]) as Hp
    by reflexivity.
  assert ("B" ∈ dom (Network.nodes Examples.abc)) as Hb.
  { apply elem_of_dom. vm_compute. eexists. reflexivity. }
  split; [exact Hp|]. split; [exact Hb|].
  exact (propagate_single_node Examples.abc si h "B" Hp Hb).
Defined.

(** C9: calling [connect] again on a network that [connect] has wired
    returns normally and leaves the network exactly as it was: the same
    lines with the same lengths and the same [successive] maps of every
    node and line. *)
Theorem connect_twice_noop (hypot : float -> float -> float)
    (net0 net : Network.t) :
  Network.connect hypot net0 = (Val tt, net) ->
  Network.connect hypot net = (Val tt, net).
Proof. intros H. eapply connect_id, connect_post, H. Qed.

Lemma connect_twice_noop_witness :
  Network.connect Examples.hypot Examples.abc_built = (Val tt, Examples.abc)
  /\ Network.connect Examples.hypot Examples.abc = (Val tt, Examples.abc).
Proof.
  assert (Network.connect Examples.hypot Examples.abc_built
          = (Val tt, Examples.abc)) as H by (vm_compute; reflexivity).
  split; [exact H|].
  exact (connect_twice_noop Examples.hypot Examples.abc_built Examples.abc H).
Defined.

(** The constructor: a new list object with the caller's elements. *)
Lemma signal_init_run (P : float) (r : loc) (h : gmap loc (list string))
    (p : list string) :
  h !! r = Some p ->
  exists si h1,
    Signal_information.init P r h = (Val si, h1)
    /\ Signal_information.signal_power si = P
    /\ Signal_information.noise_power si = 0%float
    /\ Signal_information.latency si = 0%float
    /\ h1 !! Signal_information.path si = Some p
    /\ Signal_information.path si <> r
    /\ h1 !! r = Some p.
Proof.
  intros Hr. unfold Signal_information.init. rewrite Hr.
  assert (fresh (dom h) <> r) as Hne.
  { intros Heq. apply (is_fresh (dom h)). rewrite Heq.
    apply elem_of_dom. eauto. }
  eexists _, _. split; [reflexivity|]. simpl.
  repeat split; try done.
  - by rewrite lookup_insert_eq.
  - by rewrite lookup_insert_ne.
Qed.

(** C10: [Signal_information(P, p)] has power [P], noise [0.0], latency
    [0.0] and a path with the elements of [p], held in a list object of its
    own: whatever [update_path] and [propagate] do afterwards, normally or
    by an exception, the caller's list still holds [p]. *)
Theorem signal_init_copies_path (P : float) (r : loc)
    (h : gmap loc (list string)) (p : list string) :
  h !! r = Some p ->
  exists si h1,
    Signal_information.init P r h = (Val si, h1)
    /\ Signal_information.signal_power si = P
    /\ Signal_information.noise_power si = 0%float
    /\ Signal_information.latency si = 0%float
    /\ h1 !! Signal_information.path si = Some p
    /\ Signal_information.path si <> r
    /\ h1 !! r = Some p
    /\ (Signal_information.update_path (si, h1)).2.2 !! r = Some p
    /\ forall net, (Network.propagate net (si, h1)).2.2 !! r = Some p.
Proof.
  intros Hr.
  destruct (signal_init_run P r h p Hr)
    as (si & h1 & Hrun & HP & Hn & Hl & Hp & Hne & Hr1).
  exists si, h1. repeat split; try done.
  - destruct (frame_update_path (si, h1)) as (_ & _ & Hh).
    rewrite Hh; [exact Hr1 | simpl; congruence].
  - intros net.
    destruct (frame_network_propagate net (si, h1)) as (_ & _ & Hh).
    rewrite Hh; [exact Hr1 | simpl; congruence].
Qed.

(** The constructor of [main.py], which makes no copy, lets [update_path]
    shorten the caller's list. *)
Example main_signal_shares_path :
  let h := Examples.heap_with ["A"; "B"] in
  exists si h1,
    Main.init 1 1%positive h = (Val si, h1)
    /\ (Signal_information.update_path (si, h1)).2.2 !! 1%positive
       = Some ["B"].
Proof. eexists _, _. split; reflexivity. Qed.

Lemma signal_init_copies_path_witness :
  let h := Examples.heap_with ["A"; "B"; "C"] in
  h !! 1%positive = Some ["A"; "B"; "C"]
  /\ exists si h1,
      Signal_information.init 1 1%positive h = (Val si, h1)
      /\ Signal_information.signal_power si = 1%float
      /\ Signal_information.noise_power si = 0%float
      /\ Signal_information.latency si = 0%float
      /\ h1 !! Signal_information.path si = Some ["A"; "B"; "C"]
      /\ Signal_information.path si <> 1%positive
      /\ h1 !! 1%positive = Some ["A"; "B"; "C"]
      /\ (Signal_information.update_path (si, h1)).2.2 !! 1%positive
         = Some ["A"; "B"; "C"]
      /\ forall net,
          (Network.propagate net (si, h1)).2.2 !! 1%positive
          = Some ["A"; "B"; "C"].
Proof.
  intros h. split; [reflexivity|].
  exact (signal_init_copies_path 1 1%positive h ["A"; "B"; "C"] eq_refl).
Defined.

(** Along wired hops every hop has its line. *)
Lemma links_length_cons net p : forall a,
  all_wired net (a :: p) = true ->
  List.length (links net (a :: p)) = List.length p.
Proof.
  induction p as [|b p IH]; intros a Hw; [done|].
  change (hop_wired net a b && all_wired net (b :: p) = true) in Hw.
  apply andb_prop in Hw as [Hab Hw]. unfold hop_wired in Hab.
  change (links net (a :: b :: p))
    with (match link net a b with
          | Some l => l :: links net (b :: p)
          | None => links net (b :: p)
          end).
  destruct (link net a b); [|done].
  change (S (List.length (links net (b :: p))) = S (List.length p)).
  by rewrite (IH b Hw).
Qed.

Lemma links_length net p :
  all_wired net p = true ->
  List.length (links net p) = (List.length p - 1)%nat.
Proof.
  destruct p as [|a p]; intros Hw; [done|].
  rewrite (links_length_cons net p a Hw). simpl. lia.
Qed.

(** One hop that is not wired leaves the path not wired. *)
Lemma all_wired_false_cons net p : forall x i a b,
  (x :: p) !! i = Some a -> (x :: p) !! S i = Some b ->
  hop_wired net a b = false -> all_wired net (x :: p) = false.
Proof.
  induction p as [|y p IH]; intros x i a b Ha Hb Hw.
  { by destruct i. }
  change (hop_wired net x y && all_wired net (y :: p) = false).
  destruct i as [|i].
  - simpl in Ha, Hb. simplify_eq. by rewrite Hw.
  - rewrite (IH y i a b Ha Hb Hw). apply andb_false_r.
Qed.

Lemma all_wired_false net p i a b :
  p !! i = Some a -> p !! S i = Some b -> hop_wired net a b = false ->
  all_wired net p = false.
Proof.
  destruct p as [|x p]; [done|]. apply all_wired_false_cons.
Qed.

(** A network built by [__init__] and wired by [connect]: every reference
    resolves. *)
Lemma built_refs_ok hypot data net0 net :
  Network.init data = Val net0 ->
  Network.connect hypot net0 = (Val tt, net) ->
  refs_ok net.
Proof.
  intros Hinit Hconn.
  pose proof (refs_ok_connect hypot net0) as Hk. rewrite Hconn in Hk.
  apply Hk, fresh_network_refs_ok, (init_fresh data), Hinit.
Qed.

(** C1: on a network built and wired by the code, a signal of initial power
    [P] made for a path of at least two nodes whose consecutive hops are all
    wired is propagated to the end: [propagate] returns it with an empty
    path, a latency that is the sum over the traversed lines of
    [length / ((2/3) * 3e8)], a noise that is the sum over them of
    [1e-9 * P * length], and its power still [P]; the lines traversed are
    one fewer than the nodes.  The sums are the float sums accumulated from
    [0.0] in the order of the path. *)
Theorem propagate_accumulates (hypot : float -> float -> float)
    (data : list (string * Node.node_dict)) (net0 net : Network.t)
    (P : float) (r : loc) (h : gmap loc (list string)) (p : list string) :
  Network.init data = Val net0 ->
  Network.connect hypot net0 = (Val tt, net) ->
  h !! r = Some p ->
  (2 <= List.length p)%nat ->
  all_wired net p = true ->
  exists si h1 si' h',
    Signal_information.init P r h = (Val si, h1)
    /\ Network.propagate net (si, h1) = (Val si', (si', h'))
    /\ h' !! Signal_information.path si' = Some []
    /\ Signal_information.latency si'
       = fsum (map (fun l => (Line.length l / ((2 / 3) * 3e8))%float)
                   (links net p))
    /\ Signal_information.noise_power si'
       = fsum (map (fun l => (1e-9 * P * Line.length l)%float) (links net p))
    /\ Signal_information.signal_power si' = P
    /\ List.length (links net p) = (List.length p - 1)%nat.
Proof.
  intros Hinit Hconn Hr Hlen Hw.
  pose proof (built_refs_ok _ _ _ _ Hinit Hconn) as Hrefs.
  destruct (signal_init_run P r h p Hr)
    as (si & h1 & Hsi & HP & Hn & Hl & Hp & _).
  destruct p as [|a rest]; [simpl in Hlen; lia|].
  destruct rest as [|b rest]; [simpl in Hlen; lia|].
  assert (exists node, Network.nodes net !! a = Some node) as [node Hnode].
  { cbn [all_wired] in Hw. apply andb_prop in Hw as [Hab _].
    unfold hop_wired, link in Hab.
    destruct (Network.nodes net !! a); [eauto | done]. }
  exists si, h1, (after_walk si (links net (a :: b :: rest))),
    (<[Signal_information.path si := []]> h1).
  split; [done|]. split.
  { unfold Network.propagate.
    rewrite (bind_val _ _ _ _ _ (get_path_run _ _ _ Hp)).
    rewrite (bind_val _ _ _ _ _ (subscript_val _ _ _ _ Hnode)).
    assert (2 * List.length (b :: rest) < 2 * List.length (a :: b :: rest))%nat
      as Hbudget by (simpl; lia).
    by rewrite (bind_val _ _ _ _ _
                  (walk net Hrefs (b :: rest) a node si h1 _ Hnode Hp Hw
                     Hbudget)). }
  split; [apply lookup_insert_eq|].
  unfold after_walk, fsum. simpl Signal_information.latency.
  simpl Signal_information.noise_power.
  simpl Signal_information.signal_power. rewrite Hl, Hn, HP.
  split; [reflexivity|]. split; [reflexivity|]. split; [reflexivity|].
  by apply links_length.
Qed.

Lemma propagate_accumulates_witness :
  let p := ["A"; "B"; "C"] in
  let h := Examples.heap_with p in
  Network.init Examples.abc_data = Val Examples.abc_built
  /\ Network.connect Examples.hypot Examples.abc_built = (Val tt, Examples.abc)
  /\ h !! 1%positive = Some p
  /\ (2 <= List.length p)%nat
  /\ all_wired Examples.abc p = true
  /\ exists si h1 si' h',
      Signal_information.init 1 1%positive h = (Val si, h1)
      /\ Network.propagate Examples.abc (si, h1) = (Val si', (si', h'))
      /\ h' !! Signal_information.path si' = Some []
      /\ Signal_information.latency si'
         = fsum (map (fun l => (Line.length l / ((2 / 3) * 3e8))%float)
                     (links Examples.abc p))
      /\ Signal_information.noise_power si'
         = fsum (map (fun l => (1e-9 * 1 * Line.length l)%float)
                     (links Examples.abc p))
      /\ Signal_information.signal_power si' = 1%float
      /\ List.length (links Examples.abc p) = (List.length p - 1)%nat.
Proof.
  intros p h.
  assert (Network.init Examples.abc_data = Val Examples.abc_built) as H1
    by (vm_compute; reflexivity).
  assert (Network.connect Examples.hypot Examples.abc_built
          = (Val tt, Examples.abc)) as H2 by (vm_compute; reflexivity).
  assert (h !! 1%positive = Some p) as H3 by reflexivity.
  assert (2 <= List.length p)%nat as H4 by (simpl; lia).
  assert (all_wired Examples.abc p = true) as H5 by (vm_compute; reflexivity).
  repeat (split; [assumption|]).
  exact (propagate_accumulates Examples.hypot Examples.abc_data
           Examples.abc_built Examples.abc 1 1%positive h p H1 H2 H3 H4 H5).
Defined.

(** The example of the topology A(0,0), B(0,3), C(4,0): from A over B to C
    the lines are 3 and 5 long. *)
Example abc_propagation :
  map Line.length (links Examples.abc ["A"; "B"; "C"]) = [3; 5]%float
  /\ fsum (map Line.latency_generation (links Examples.abc ["A"; "B"; "C"]))
     = (0 + 3 / 2e8 + 5 / 2e8)%float
  /\ fsum (map (fun l => Line.noise_generation l 1)
               (links Examples.abc ["A"; "B"; "C"]))
     = (0 + 1e-9 * 1 * 3 + 1e-9 * 1 * 5)%float.
Proof. vm_compute. repeat split. Qed.

(** C4: on a network built and wired by the code, when the path of a signal
    names somewhere a node and a next hop that is not wired from it,
    [propagate] does not return: a subscript raises [KeyError], which
    reaches the caller. *)
Theorem propagate_unwired_raises (hypot : float -> float -> float)
    (data : list (string * Node.node_dict)) (net0 net : Network.t)
    (si : Signal_information.t) (h : gmap loc (list string))
    (p : list string) (i : nat) (a b : string) :
  Network.init data = Val net0 ->
  Network.connect hypot net0 = (Val tt, net) ->
  h !! Signal_information.path si = Some p ->
  p !! i = Some a -> p !! S i = Some b ->
  hop_wired net a b = false ->
  exists key w, Network.propagate net (si, h) = (Exn (KeyError key), w).
Proof.
  intros Hinit Hconn Hp Ha Hb Hab.
  pose proof (built_refs_ok _ _ _ _ Hinit Hconn) as Hrefs.
  pose proof (all_wired_false net p i a b Ha Hb Hab) as Hw.
  destruct p as [|x rest]; [done|].
  unfold Network.propagate.
  rewrite (bind_val _ _ _ _ _ (get_path_run _ _ _ Hp)).
  unfold subscript at 1.
  destruct (Network.nodes net !! x) as [node|] eqn:Hnode.
  2:{ eexists _, _. reflexivity. }
  unfold bind at 1, ret at 1.
  assert (2 * List.length rest < 2 * List.length (x :: rest))%nat
    as Hbudget by (simpl; lia).
  destruct (walk_unwired net Hrefs rest x node si h _ Hnode Hp Hw Hbudget)
    as (key & w & Hrun).
  exists key, w. by rewrite (bind_exn _ _ _ _ _ Hrun).
Qed.

Lemma propagate_unwired_raises_witness :
  let si := Signal_information.mk 1 0 0 1%positive in
  let p := ["A"; "B"; "A"; "C"] in
  let h := Examples.heap_with p in
  Network.init Examples.abc_data = Val Examples.abc_built
  /\ Network.connect Examples.hypot Examples.abc_built = (Val tt, Examples.abc)
  /\ h !! Signal_information.path si = Some p
  /\ p !! 2%nat = Some "A" /\ p !! 3%nat = Some "C"
  /\ hop_wired Examples.abc "A" "C" = false
  /\ exists key w,
      Network.propagate Examples.abc (si, h) = (Exn (KeyError key), w).
Proof.
  intros si p h.
  assert (Network.init Examples.abc_data = Val Examples.abc_built) as H1
    by (vm_compute; reflexivity).
  assert (Network.connect Examples.hypot Examples.abc_built
          = (Val tt, Examples.abc)) as H2 by (vm_compute; reflexivity).
  assert (h !! Signal_information.path si = Some p) as H3 by reflexivity.
  assert (p !! 2%nat = Some "A") as H4 by reflexivity.
  assert (p !! 3%nat = Some "C") as H5 by reflexivity.
  assert (hop_wired Examples.abc "A" "C" = false) as H6
    by (vm_compute; reflexivity).
  repeat (split; [assumption|]).
  exact (propagate_unwired_raises Examples.hypot Examples.abc_data
           Examples.abc_built Examples.abc si h p 2 "A" "C"
           H1 H2 H3 H4 H5 H6).
Defined.

(** On that path the signal gets from A to B and back before the subscript
    of A's [successive] by "AC" fails. *)
Example abc_unwired_hop :
  (Network.propagate Examples.abc
     (Signal_information.mk 1 0 0 1%positive,
      Examples.heap_with ["A"; "B"; "A"; "C"])).1
  = Exn (KeyError "AC").
Proof. vm_compute. reflexivity. Qed.

(** C3, as stated, fails: in a topology whose adjacency list names a label
    that is no node, A -> B is a simple path, yet [find_paths] returns no
    list of paths: the search reaches the unknown label first and the
    subscript of [nodes] raises [KeyError]. *)
Lemma find_paths_dangling_raises :
  simple_path Examples.dangling "A" "B" ["A"; "B"]
  /\ Network.find_paths Examples.dangling "A" "B" = Exn (KeyError "Z").
Proof.
  split; [|vm_compute; reflexivity].
  assert ("A" ∈ dom (Network.nodes Examples.dangling)) as HA.
  { apply elem_of_dom. vm_compute. eexists. reflexivity. }
  assert ("B" ∈ dom (Network.nodes Examples.dangling)) as HB.
  { apply elem_of_dom. vm_compute. eexists. reflexivity. }
  repeat split.
  - apply NoDup_cons. split; [|apply NoDup_singleton].
    by intros [=]%list_elem_of_singleton.
  - repeat constructor; assumption.
  - eexists. split; [vm_compute; reflexivity|]. set_solver.
Qed.

(** C3, amended: in a topology whose adjacency lists name only nodes of the
    topology, [find_paths(start, end)] returns, and returns exactly the
    simple paths from [start] to [end]: each begins with [start], ends with
    [end], repeats no node and follows the adjacency lists; every such path
    is in the result; the result is empty when an endpoint is absent or no
    such path exists. *)
Theorem find_paths_simple_paths (net : Network.t) (start end_ : string) :
  adjacency_closed net ->
  exists paths,
    Network.find_paths net start end_ = Val paths
    /\ (forall q, q ∈ paths <-> simple_path net start end_ q)
    /\ (start ∉ dom (Network.nodes net) \/ end_ ∉ dom (Network.nodes net) ->
        paths = [])
    /\ ((forall q, ~ simple_path net start end_ q) -> paths = []).
Proof.
  intros Hclosed.
  cut (exists paths,
          Network.find_paths net start end_ = Val paths
          /\ (forall q, q ∈ paths <-> simple_path net start end_ q)
          /\ (start ∉ dom (Network.nodes net)
              \/ end_ ∉ dom (Network.nodes net) -> paths = [])).
  { intros (paths & Hrun & Hiff & Habs). exists paths.
    split; [done|]. split; [done|]. split; [done|].
    intros Hnone. destruct paths as [|q paths]; [done|].
    destruct (Hnone q). apply Hiff. left. }
  unfold Network.find_paths.
  destruct (decide (start ∉ dom (Network.nodes net)
                    \/ end_ ∉ dom (Network.nodes net))) as [Habs|Hpres].
  - exists []. split; [done|]. split; [|done]. intros q. split.
    { by intros ?%elem_of_nil. }
    intros (Hh & Hl & _ & Hall & _). exfalso.
    rewrite Forall_forall in Hall. destruct Habs as [Hs|He].
    + apply Hs, Hall. destruct q; simplify_eq/=. left.
    + apply He, Hall. apply last_Some in Hl as [l' ->]. set_solver.
  - assert (start ∈ dom (Network.nodes net)) as Hs.
    { destruct (decide (start ∈ dom (Network.nodes net))); tauto. }
    destruct (dfs_spec net end_ Hclosed (S (size (Network.nodes net)))
                start [start] []) as (new & Hrun & Hnew).
    + done.
    + apply NoDup_singleton.
    + by apply Forall_singleton.
    + simpl. lia.
    + rewrite Hrun. exists new. split; [done|]. split; [|tauto].
      intros q. rewrite Hnew. by apply extends_simple_path.
Qed.

Lemma find_paths_simple_paths_witness :
  adjacency_closed Examples.abc
  /\ exists paths,
      Network.find_paths Examples.abc "A" "C" = Val paths
      /\ (forall q, q ∈ paths <-> simple_path Examples.abc "A" "C" q)
      /\ ("A" ∉ dom (Network.nodes Examples.abc)
          \/ "C" ∉ dom (Network.nodes Examples.abc) -> paths = [])
      /\ ((forall q, ~ simple_path Examples.abc "A" "C" q) -> paths = []).
Proof.
  assert (adjacency_closed Examples.abc) as H.
  { unfold adjacency_closed. apply (bool_decide_unpack _).
    vm_compute. exact I. }
  split; [exact H|].
  exact (find_paths_simple_paths Examples.abc "A" "C" H).
Defined.

Example abc_find_paths :
  Network.find_paths Examples.abc "A" "C" = Val [["A"; "B"; "C"]].
Proof. vm_compute. reflexivity. Qed.

(** When [connect] returns, every adjacency list names only nodes of the
    network. *)
Lemma connect_adjacency_closed hypot s s' :
  fresh_network s -> Network.connect hypot s = (Val tt, s') ->
  adjacency_closed s.
Proof.
  intros (_ & _ & _ & Hord) Hconn a n Hn. simpl.
  unfold Network.connect in Hconn.
  apply bind_inv_val in Hconn as ([] & s1 & Hc & _).
  pose proof (grows_create_lines hypot s) as Hg. rewrite Hc in Hg.
  assert ((a, n) ∈ Network.items s) as Hin.
  { apply elem_of_items. split; [|done]. apply Hord, elem_of_dom. eauto. }
  destruct (create_lines_post hypot _ _ Hc _ _ Hin) as [_ Hb].
  apply Forall_forall. intros b Hbin.
  destruct (Hb b Hbin) as [(nb & Hnb & _) _].
  destruct Hg as (_ & Hdom & _). simpl in Hdom. rewrite <- Hdom.
  apply elem_of_dom. eauto.
Qed.

(** C5, as stated, fails: [__init__] accepts a description in which A's
    adjacency list names "Z", a label that is no entry. *)
Lemma build_accepts_unknown_neighbor :
  Network.init Examples.dangling_data = Val Examples.dangling
  /\ adjacent Examples.dangling "A" "Z"
  /\ "Z" ∉ dom (Network.nodes Examples.dangling).
Proof.
  split; [vm_compute; reflexivity|]. split.
  - eexists. split; [vm_compute; reflexivity|]. set_solver.
  - apply not_elem_of_dom. vm_compute. reflexivity.
Qed.

(** C5, amended: over entries with distinct keys, [__init__] raises
    [KeyError] when some entry lacks "position" or "connected_nodes" (a
    missing "label" is filled with the entry's key); otherwise it returns a
    network with exactly one node per entry, in the order of the entries,
    and no line.  A neighbour label that is no entry is not looked for
    here: it makes the later [connect] raise. *)
Theorem build_checks_fields (hypot : float -> float -> float)
    (data : list (string * Node.node_dict)) :
  NoDup data.*1 ->
  (Exists (fun e => ~ well_formed_entry e.2) data ->
   exists key, Network.init data = Exn (KeyError key)
               /\ (key = "position" \/ key = "connected_nodes")%string)
  /\ (Forall (fun e => well_formed_entry e.2) data ->
      exists net,
        Network.init data = Val net
        /\ Network.node_order net = data.*1
        /\ size (Network.nodes net) = List.length data
        /\ (forall k nd, (k, nd) ∈ data ->
              Network.nodes net !! k = Some (node_of k nd))
        /\ Network.lines net = ∅
        /\ (~ adjacency_closed net ->
            exists e s', Network.connect hypot net = (Exn e, s'))).
Proof.
  intros Hnd. split.
  - intros Hex.
    destruct (init_loop_exn data (Network.mk ∅ [] ∅) Hex)
      as (key & s' & Hrun & Hkey).
    exists key. unfold Network.init. by rewrite Hrun.
  - intros Hwf.
    destruct (init_loop_val data (Network.mk ∅ [] ∅) Hwf Hnd)
      as (net & Hrun & Hl & Ho & Hin & Hout).
    { intros k _. simpl. by intros ?%elem_of_nil. }
    assert (Network.init data = Val net) as Hinit.
    { unfold Network.init. by rewrite Hrun. }
    exists net. split; [done|]. split; [done|]. split; [|split; [done|split]].
    + assert (dom (Network.nodes net) = list_to_set data.*1) as Hdom.
      { apply set_eq. intros k. rewrite elem_of_list_to_set, elem_of_dom.
        split.
        - intros [n Hn]. destruct (decide (k ∈ data.*1)) as [|Hk]; [done|].
          rewrite (Hout k Hk) in Hn. simpl in Hn.
          by rewrite lookup_empty in Hn.
        - intros ([k' nd] & -> & He)%list_elem_of_fmap. simpl.
          rewrite (Hin _ _ He). eauto. }
      rewrite <- size_dom, Hdom, (size_list_to_set _ Hnd).
      apply length_fmap.
    + done.
    + intros Hopen.
      pose proof (connect_not_stuck hypot net) as Hns.
      destruct (Network.connect hypot net) as [[[]|e|] s'] eqn:Hconn.
      * destruct Hopen. eapply connect_adjacency_closed; [|exact Hconn].
        by eapply init_fresh.
      * eauto.
      * done.
Qed.

Lemma build_checks_fields_witness :
  NoDup Examples.dangling_data.*1
  /\ (Exists (fun e => ~ well_formed_entry e.2) Examples.dangling_data ->
      exists key, Network.init Examples.dangling_data = Exn (KeyError key)
                  /\ (key = "position" \/ key = "connected_nodes")%string)
  /\ (Forall (fun e => well_formed_entry e.2) Examples.dangling_data ->
      exists net,
        Network.init Examples.dangling_data = Val net
        /\ Network.node_order net = Examples.dangling_data.*1
        /\ size (Network.nodes net) = List.length Examples.dangling_data
        /\ (forall k nd, (k, nd) ∈ Examples.dangling_data ->
              Network.nodes net !! k = Some (node_of k nd))
        /\ Network.lines net = ∅
        /\ (~ adjacency_closed net ->
            exists e s',
              Network.connect Examples.hypot net = (Exn e, s'))).
Proof.
  assert (NoDup Examples.dangling_data.*1) as H.
  { apply (bool_decide_unpack _). vm_compute. exact I. }
  split; [exact H|].
  exact (build_checks_fields Examples.hypot Examples.dangling_data H).
Defined.

(** An entry without "position", and the [connect] that finds the unknown
    neighbour. *)
Example build_missing_position :
  Network.init [("A"%string, Node.mk_dict None None (Some []))]
  = Exn (KeyError "position").
Proof. reflexivity. Qed.

Example connect_unknown_neighbor :
  (Network.connect Examples.hypot Examples.dangling).1 = Exn (KeyError "Z").
Proof. vm_compute. reflexivity. Qed.

(** ** [connect]: the length of the lines *)

Section Lengths.

Import Network.

Variable hypot : float -> float -> float.
Variable s0 : Network.t.

Lemma elem_of_edges s a b :
  (a, b) ∈ edges s <->
  exists na, (a, na) ∈ items s /\ b ∈ Node.connected_nodes na.
Proof.
  unfold edges. rewrite list_elem_of_bind. split.
  - intros ([a' na] & Hb & Hin).
    apply list_elem_of_bind in Hb as (b' & Hb & Hb').
    apply list_elem_of_singleton in Hb. simplify_eq. eauto.
  - intros (na & Hin & Hb). exists (a, na). split; [|done].
    apply list_elem_of_bind. exists b. split; [|done]. by left.
Qed.

Lemma lines_of_edges_create_line a na ax ay b :
  (a, na) ∈ items s0 -> Node.position na = [ax; ay] ->
  b ∈ Node.connected_nodes na ->
  preserves (keeps (lines_of_edges hypot s0)) (create_line hypot a ax ay b).
Proof.
  intros Hin Hpos Hb s [Hg Hl].
  pose proof (grows_create_line hypot a ax ay b s) as Hstep.
  split; [by etrans|]. revert Hstep.
  unfold create_line, bind, get, subscript.
  destruct (nodes s !! b) as [nb|] eqn:Hnb; simpl; [|by intros _].
  destruct (Node.position nb) as [|bx [|by_ [|z p]]] eqn:Hposb; simpl;
    try by intros _.
  case_decide; [by intros _|]. intros _ k l. simpl.
  destruct (decide ((a +:+ b) = k)) as [<-|Hne].
  - rewrite lookup_insert_eq. intros [= <-].
    destruct (grows_nodes_inv _ _ _ _ Hg Hnb) as (nb0 & Hnb0 & (_ & Hp & _)).
    exists a, na, b, nb0, ax, ay, bx, by_. rewrite <- Hp. by repeat split.
  - rewrite lookup_insert_ne by done. apply Hl.
Qed.

Lemma lines_of_edges_wire_edge a b :
  preserves (keeps (lines_of_edges hypot s0)) (wire_edge a b).
Proof.
  intros s [Hg Hl].
  pose proof (grows_wire_edge a b s) as Hstep.
  split; [by etrans|]. revert Hstep.
  unfold wire_edge, bind, get, subscript. simpl.
  destruct (lines s !! (a +:+ b)) as [l0|] eqn:El; simpl; [|by intros _].
  match goal with |- context [alter ?f a (nodes s) !! b] =>
    destruct (alter f a (nodes s) !! b) eqn:E end; simpl; [|by intros _].
  intros _ k l. destruct (decide ((a +:+ b) = k)) as [<-|Hne].
  - rewrite lookup_alter_eq, El. simpl. intros [= <-].
    destruct (Hl _ _ El)
      as (a' & na & b' & nb & ax & ay & bx & by_ & H1 & H2 & H3 & H4 & H5
          & H6 & H7 & H8).
    exists a', na, b', nb, ax, ay, bx, by_. by repeat split.
  - rewrite lookup_alter_ne by done. apply Hl.
Qed.

Lemma lines_of_edges_connect s' :
  lines s0 = ∅ -> connect hypot s0 = (Val tt, s') ->
  lines_of_edges hypot s0 s'.
Proof.
  intros Hempty Hconn. unfold connect in Hconn.
  apply bind_inv_val in Hconn as ([] & s1 & Hc & Hw).
  assert (lines_of_edges hypot s0 s0) as H0.
  { split; [done|]. intros k l. rewrite Hempty. by rewrite lookup_empty. }
  assert (lines_of_edges hypot s0 s1) as H1.
  { unfold create_lines in Hc. rewrite bind_get in Hc.
    match type of Hc with for_each _ ?body _ = _ =>
      assert (forall x, x ∈ items s0 ->
                preserves (keeps (lines_of_edges hypot s0)) (body x))
        as Hbody end.
    { intros [a na] Hin s. unfold bind.
      destruct (Node.position na) as [|ax [|ay [|z p]]] eqn:Hpos; simpl;
        try reflexivity.
      apply (preserves_for_each (keeps (lines_of_edges hypot s0))).
      intros b Hb. by eapply lines_of_edges_create_line. }
    pose proof (preserves_for_each (keeps (lines_of_edges hypot s0))
                  (items s0) _ Hbody s0) as Hk.
    rewrite Hc in Hk. by apply Hk. }
  unfold wire in Hw. rewrite bind_get in Hw.
  match type of Hw with for_each _ ?body _ = _ =>
    assert (forall x, x ∈ items s1 ->
              preserves (keeps (lines_of_edges hypot s0)) (body x))
      as Hbody end.
  { intros [a na] _.
    apply (preserves_for_each (keeps (lines_of_edges hypot s0))).
    intros b _. apply lines_of_edges_wire_edge. }
  pose proof (preserves_for_each (keeps (lines_of_edges hypot s0))
                (items s1) _ Hbody s1) as Hk.
  rewrite Hw in Hk. by apply Hk.
Qed.

End Lengths.

(** X17: when distinct edges have distinct keys, [connect] gives every
    edge its own line, as long as the distance between the two nodes, and
    wires it on both sides. *)
Lemma connect_wires_unique_keys (hypot : float -> float -> float)
    (data : list (string * Node.node_dict)) (net0 net : Network.t)
    (a b : string) :
  Network.init data = Val net0 ->
  Network.connect hypot net0 = (Val tt, net) ->
  keys_unique net0 ->
  (a, b) ∈ edges net0 ->
  exists na nb ax ay bx by_ l,
    Network.nodes net !! a = Some na /\ Network.nodes net !! b = Some nb
    /\ Node.position na = [ax; ay] /\ Node.position nb = [bx; by_]
    /\ Network.lines net !! (a +:+ b) = Some l
    /\ Line.label l = a +:+ b
    /\ Line.length l = hypot (bx - ax)%float (by_ - ay)%float
    /\ Node.successive na !! (a +:+ b) = Some (LineRef (a +:+ b))
    /\ Line.successive l !! b = Some (NodeRef b).
Proof.
  intros Hinit Hconn Huniq Hedge.
  destruct (init_fresh _ _ Hinit) as (Hempty & _).
  pose proof (grows_connect hypot net0) as Hg. rewrite Hconn in Hg.
  simpl in Hg.
  pose proof (connect_post hypot _ _ Hconn) as Hpost.
  destruct (lines_of_edges_connect hypot net0 net Hempty Hconn) as [_ Hlen].
  pose proof Hedge as (na0 & Hin0 & Hb0)%elem_of_edges.
  apply elem_of_items in Hin0 as [Ho0 Hn0].
  destruct Hg as (Hord & _ & Hfw & _).
  destruct (Hfw _ _ Hn0) as (na & Hna & (_ & Hposa & Hconna & _)).
  assert ((a, na) ∈ Network.items net) as Hin.
  { apply elem_of_items. by rewrite Hord. }
  destruct (Hpost _ _ Hin) as [_ Hb]. rewrite Hconna in Hb.
  destruct (Hb b Hb0) as [[(nb & Hnb & _) _] [(n & Hn & Hsucc) (l & Hl & Hlb)]].
  rewrite Hna in Hn. injection Hn as <-.
  destruct (Hlen _ _ Hl)
    as (a' & na' & b' & nb' & ax & ay & bx & by_ & Hin' & Hb' & Hnb' & Hpa
        & Hpb & Hkey & Hlabel & Hlength).
  assert ((a', b') = (a, b)) as [= -> ->].
  { unfold keys_unique in Huniq. rewrite Forall_forall in Huniq.
    assert ((a', b') ∈ edges net0) as Hedge' by (apply elem_of_edges; eauto).
    pose proof (Huniq _ Hedge') as Hall. rewrite Forall_forall in Hall.
    apply (Hall _ Hedge). exact (eq_sym Hkey). }
  apply elem_of_items in Hin' as [_ Hn0']. rewrite Hn0 in Hn0'.
  injection Hn0' as <-.
  destruct (Hfw _ _ Hnb') as (nb2 & Hnb2 & (_ & Hposb & _)).
  rewrite Hnb in Hnb2. injection Hnb2 as <-.
  exists na, nb, ax, ay, bx, by_, l.
  rewrite Hposa, Hposb. by repeat split.
Qed.

Example abc_wired :
  keys_unique Examples.abc_built
  /\ ("B", "C") ∈ edges Examples.abc_built
  /\ Line.length <$> Network.lines Examples.abc !! "BC" = Some 5%float.
Proof.
  split; [|split].
  - unfold keys_unique. apply (bool_decide_unpack _). vm_compute. exact I.
  - apply (bool_decide_unpack _). vm_compute. exact I.
  - vm_compute. reflexivity.
Qed.

(** C6 on colliding labels: with the nodes "A", "AB", "BC" and "C", the
    edges A -> BC and AB -> C have the same key "ABC".  [connect] returns,
    having made one line for both: it is as long as the distance from A to
    BC, which is 3, and the edge AB -> C, between nodes 4 apart, is wired to
    it; its [successive] leads to both "BC" and "C". *)
Theorem connect_collision_wrong_length :
  Network.init Examples.collide_data = Val Examples.collide_built
  /\ Network.connect Examples.hypot Examples.collide_built
     = (Val tt, Examples.collide)
  /\ ("A", "BC") ∈ edges Examples.collide_built
  /\ ("AB", "C") ∈ edges Examples.collide_built
  /\ edge_key ("A", "BC") = edge_key ("AB", "C")
  /\ size (Network.lines Examples.collide) = 1%nat
  /\ Line.length <$> Network.lines Examples.collide !! "ABC" = Some 3%float
  /\ Examples.hypot (0 - 0) (5 - 1) = 4%float
  /\ (ab ← Network.nodes Examples.collide !! "AB";
      Node.successive ab !! "ABC")
     = Some (LineRef "ABC")
  /\ dom <$> (Line.successive <$> Network.lines Examples.collide !! "ABC")
     = Some ({["BC"; "C"]} : gset string).
Proof.
  split; [vm_compute; reflexivity|]. split; [vm_compute; reflexivity|].
  split; [apply (bool_decide_unpack _); vm_compute; exact I|].
  split; [apply (bool_decide_unpack _); vm_compute; exact I|].
  split; [reflexivity|]. split; [vm_compute; reflexivity|].
  split; [vm_compute; reflexivity|]. split; [vm_compute; reflexivity|].
  split; [vm_compute; reflexivity|].
  vm_compute. reflexivity.
Qed.

(** * Further properties of the code *)

(** ** Propagation: degenerate paths, spent signals, failures *)

Section Spends.

Import Signal_information.

#[local] Instance spends_refl : Reflexive spends.
Proof. intros [si h]. split; [done|]. intros p Hp. by exists p. Qed.

#[local] Instance spends_trans : Transitive spends.
Proof.
  intros [s1 h1] [s2 h2] [s3 h3] [Hp Hs] [Hp' Hs']. cbn in *.
  split; cbn; [by rewrite Hp', Hp|]. intros p H1.
  destruct (Hs p H1) as (q & H2 & Hq). rewrite <- Hp in H2.
  destruct (Hs' q H2) as (r & H3 & Hr). rewrite Hp in H3.
  exists r. split; [done | by etrans].
Qed.

Lemma spends_get_path : preserves spends get_path.
Proof.
  intros [si h]. unfold get_path. destruct (h !! path si); reflexivity.
Qed.

Lemma spends_update_path : preserves spends update_path.
Proof.
  intros [si h]. unfold update_path, bind, get_path.
  destruct (h !! path si) as [[|x rest]|] eqn:Hp; simpl; try reflexivity.
  split; [done|]. simpl. intros p Hp'. rewrite Hp in Hp'.
  injection Hp' as <-. exists rest. rewrite lookup_insert_eq.
  split; [done|]. by apply suffix_cons_r.
Qed.

Lemma spends_numbers (f : t -> t) :
  (forall si, path (f si) = path si) ->
  preserves spends (modify (fun '(si, h) => (f si, h))).
Proof.
  intros Hf. apply (preserves_modify spends). intros [si h].
  split; simpl; [apply Hf|]. intros p Hp. by exists p.
Qed.

Lemma spends_propagate nodes lines budget :
  (forall self, preserves spends (Node_propagate nodes lines budget self))
  /\ (forall self, preserves spends (Line_propagate nodes lines budget self)).
Proof.
  induction budget as [|budget [IHn IHl]]; (split; intros self); simpl;
    try apply (preserves_stuck spends).
  - apply (preserves_bind spends); [apply spends_update_path | intros _].
    apply (preserves_bind spends);
      [apply spends_get_path | intros [|next rest]].
    { apply (preserves_ret spends). }
    apply (preserves_bind spends);
      [apply (preserves_subscript spends) | intros [k]].
    destruct (lines !! k); [apply IHl | apply (preserves_stuck spends)].
  - apply (preserves_bind spends); [by apply spends_numbers | intros _].
    apply (preserves_bind spends); [|intros P].
    { intros [si h]. reflexivity. }
    apply (preserves_bind spends); [by apply spends_numbers | intros _].
    apply (preserves_bind spends);
      [apply spends_get_path | intros [|next rest]].
    { apply (preserves_ret spends). }
    apply (preserves_bind spends);
      [apply (preserves_subscript spends) | intros [k]].
    destruct (nodes !! k); [apply IHn | apply (preserves_stuck spends)].
Qed.

Lemma spends_network_propagate net : preserves spends (Network.propagate net).
Proof.
  unfold Network.propagate.
  apply (preserves_bind spends); [apply spends_get_path | intros [|a rest]].
  - apply (preserves_get_bind spends). intros [si h]. reflexivity.
  - apply (preserves_bind spends);
      [apply (preserves_subscript spends) | intros node].
    apply (preserves_bind spends); [apply spends_propagate | intros _].
    apply (preserves_get_bind spends). intros [si h]. reflexivity.
Qed.

Lemma get_path_inv w p w' :
  get_path w = (Val p, w') -> w' = w /\ w.2 !! path w.1 = Some p.
Proof.
  destruct w as [si h]. unfold get_path. simpl.
  destruct (h !! path si); intros H; by simplify_eq.
Qed.

(** A normal return happens only once the path is used up. *)
Lemma propagate_val_empty nodes lines budget :
  (forall self w w',
      Node_propagate nodes lines budget self w = (Val tt, w') ->
      w'.2 !! path w'.1 = Some [])
  /\ (forall self w w',
      Line_propagate nodes lines budget self w = (Val tt, w') ->
      w'.2 !! path w'.1 = Some []).
Proof.
  induction budget as [|budget [IHn IHl]]; (split; intros self w w' H);
    [done | done | |].
  - cbn [Node_propagate] in H.
    apply bind_inv_val in H as ([] & w1 & _ & H).
    apply bind_inv_val in H as (p & w2 & [-> Hp]%get_path_inv & H).
    destruct p as [|next rest].
    { unfold ret in H. by simplify_eq. }
    apply bind_inv_val in H as ([k] & w3 & _ & H).
    destruct (lines !! k); [by eapply IHl | done].
  - cbn [Line_propagate] in H.
    apply bind_inv_val in H as ([] & w1 & _ & H).
    apply bind_inv_val in H as (P & w2 & _ & H).
    apply bind_inv_val in H as ([] & w3 & _ & H).
    apply bind_inv_val in H as (p & w4 & [-> Hp]%get_path_inv & H).
    destruct p as [|next rest].
    { unfold ret in H. by simplify_eq. }
    apply bind_inv_val in H as ([k] & w5 & _ & H).
    destruct (nodes !! k); [by eapply IHn | done].
Qed.

End Spends.

(** Up to a node that holds no line for the next hop, the walk goes as
    along a wired path; there the subscript of [successive] raises, with
    the path consumed up to that node and the lines before it accounted
    for. *)
Lemma walk_to_missing net (Hrefs : refs_ok net) rest :
  forall x node si h budget a na b post,
  Network.nodes net !! x = Some node ->
  h !! Signal_information.path si = Some ((x :: rest) ++ b :: post) ->
  all_wired net (x :: rest) = true ->
  last (x :: rest) = Some a ->
  Network.nodes net !! a = Some na ->
  Node.successive na !! (Node.label na +:+ b) = None ->
  2 * List.length (rest ++ b :: post) < budget ->
  Node_propagate (Network.nodes net) (Network.lines net) budget node (si, h)
  = (Exn (KeyError (Node.label na +:+ b)),
     (after_walk si (links net (x :: rest)),
      <[Signal_information.path si := b :: post]> h)).
Proof.
  induction rest as [|y rest IH];
    intros x node si h budget a na b post Hn Hp Hw Hlast Ha Hmiss Hb.
  - simpl in Hlast. injection Hlast as <-. rewrite Hn in Ha.
    injection Ha as <-.
    destruct budget as [|budget]; [simpl in Hb; lia|].
    cbn [Node_propagate].
    rewrite (bind_val _ _ _ _ _ (update_path_run _ _ _ _ Hp)).
    erewrite bind_val by (apply get_path_run, lookup_insert_eq).
    unfold subscript at 1. rewrite Hmiss. by destruct si.
  - destruct budget as [|[|budget]]; [simpl in Hb; lia..|].
    change (hop_wired net x y && all_wired net (y :: rest) = true) in Hw.
    apply andb_prop in Hw as [Hxy Hw]. unfold hop_wired in Hxy.
    change (links net (x :: y :: rest))
      with (match link net x y with
            | Some l => l :: links net (y :: rest)
            | None => links net (y :: rest)
            end).
    destruct (link net x y) as [line|] eqn:Hlink; [|done].
    apply bool_decide_eq_true in Hxy as [r Hr].
    unfold link in Hlink. rewrite Hn in Hlink.
    destruct (Node.successive node !! (Node.label node +:+ y))
      as [[k]|] eqn:Hs; [|done].
    destruct Hrefs as [_ Hl]. destruct (Hl _ _ _ _ Hlink Hr) as [-> Hdom].
    apply elem_of_dom in Hdom as [ny Hny].
    cbn [Node_propagate].
    rewrite (bind_val _ _ _ _ _ (update_path_run _ _ _ _ Hp)).
    erewrite bind_val by (apply get_path_run, lookup_insert_eq).
    unfold subscript at 1. rewrite Hs. unfold bind at 1, ret at 1.
    rewrite Hlink. cbn [Line_propagate].
    unfold Signal_information.update_latency at 1, modify at 1, bind at 1.
    unfold Signal_information.get_signal_power at 1, bind at 1.
    unfold Signal_information.update_noise_power at 1, modify at 1,
      bind at 1.
    erewrite bind_val by (apply get_path_run, lookup_insert_eq).
    unfold subscript at 1. rewrite Hr. unfold bind at 1, ret at 1.
    rewrite Hny.
    erewrite (IH y ny _ _ budget a na b post);
      [| exact Hny | apply lookup_insert_eq | exact Hw | exact Hlast
       | exact Ha | exact Hmiss | simpl in Hb |- *; lia].
    simpl. rewrite insert_insert_eq. reflexivity.
Qed.

(** X1: a signal whose path starts with a label that is no node makes
    [propagate] raise [KeyError] of that label at once: the signal and its
    path are as they were. *)
Theorem propagate_unknown_start (net : Network.t)
    (si : Signal_information.t) (h : gmap loc (list string))
    (a : string) (rest : list string) :
  h !! Signal_information.path si = Some (a :: rest) ->
  Network.nodes net !! a = None ->
  Network.propagate net (si, h) = (Exn (KeyError a), (si, h)).
Proof.
  intros Hp Ha. unfold Network.propagate.
  rewrite (bind_val _ _ _ _ _ (get_path_run _ _ _ Hp)).
  unfold subscript. by rewrite Ha.
Qed.

Lemma propagate_unknown_start_witness :
  let si := Signal_information.mk 1 0 0 1%positive in
  let h := Examples.heap_with ["Q"; "A"] in
  h !! Signal_information.path si = Some ["Q"; "A"]
  /\ Network.nodes Examples.abc !! "Q" = None
  /\ Network.propagate Examples.abc (si, h) = (Exn (KeyError "Q"), (si, h)).
Proof.
  intros si h.
  assert (h !! Signal_information.path si = Some ["Q"; "A"]) as H1
    by reflexivity.
  assert (Network.nodes Examples.abc !! "Q" = None) as H2
    by (vm_compute; reflexivity).
  split; [exact H1|]. split; [exact H2|].
  exact (propagate_unknown_start Examples.abc si h "Q" ["A"] H1 H2).
Defined.

(** X2: whenever [propagate] returns normally the path of the signal is
    empty, so that propagating the returned signal again returns it once
    more and changes nothing. *)
Theorem propagate_spent (net : Network.t)
    (w w' : Signal_information.world) (si' : Signal_information.t) :
  Network.propagate net w = (Val si', w') ->
  w'.1 = si'
  /\ w'.2 !! Signal_information.path si' = Some []
  /\ Network.propagate net w' = (Val si', w').
Proof.
  intros H.
  cut (w'.1 = si' /\ w'.2 !! Signal_information.path w'.1 = Some []).
  { intros [<- Hp]. split; [done|]. split; [done|].
    destruct w' as [s h]. unfold Network.propagate.
    by rewrite (bind_val _ _ _ _ _ (get_path_run _ _ _ Hp)). }
  unfold Network.propagate in H.
  apply bind_inv_val in H as (p & w1 & [-> Hp]%get_path_inv & H).
  destruct p as [|a rest].
  - destruct w as [s h]. rewrite bind_get in H. unfold ret in H.
    by simplify_eq.
  - apply bind_inv_val in H as (node & w1 & [_ ->]%subscript_inv_val & H).
    apply bind_inv_val in H as ([] & w1 & Hrun & H).
    destruct w1 as [s1 h1]. rewrite bind_get in H. unfold ret in H.
    simplify_eq. split; [done|].
    by eapply (proj1 (propagate_val_empty _ _ _)).
Qed.

Lemma propagate_spent_witness :
  let w := (Signal_information.mk 1 0 0 1%positive,
            Examples.heap_with ["A"; "B"]) in
  exists si' w',
    Network.propagate Examples.abc w = (Val si', w')
    /\ w'.1 = si'
    /\ w'.2 !! Signal_information.path si' = Some []
    /\ Network.propagate Examples.abc w' = (Val si', w').
Proof.
  intros w.
  assert (exists si' w', Network.propagate Examples.abc w = (Val si', w'))
    as (si' & w' & H).
  { vm_compute. eexists _, _. reflexivity. }
  exists si', w'. split; [exact H|].
  exact (propagate_spent Examples.abc w w' si' H).
Defined.

(** X3: whatever its outcome, [propagate] leaves the power of the signal as
    it was and only takes elements off the front of its path: what is left
    is a suffix of the path it was given. *)
Theorem propagate_only_consumes (net : Network.t)
    (si : Signal_information.t) (h : gmap loc (list string))
    (p : list string) :
  h !! Signal_information.path si = Some p ->
  let w' := (Network.propagate net (si, h)).2 in
  Signal_information.path w'.1 = Signal_information.path si
  /\ Signal_information.signal_power w'.1
     = Signal_information.signal_power si
  /\ exists q, w'.2 !! Signal_information.path si = Some q
               /\ q `suffix_of` p.
Proof.
  intros Hp w'.
  destruct (frame_network_propagate net (si, h)) as (Hpath & Hpow & _).
  destruct (spends_network_propagate net (si, h)) as [_ Hq].
  split; [exact Hpath|]. split; [exact Hpow|]. by apply Hq.
Qed.

Lemma propagate_only_consumes_witness :
  let si := Signal_information.mk 1 0 0 1%positive in
  let p := ["A"; "B"; "A"; "C"] in
  let h := Examples.heap_with p in
  h !! Signal_information.path si = Some p
  /\ let w' := (Network.propagate Examples.abc (si, h)).2 in
     Signal_information.path w'.1 = Signal_information.path si
     /\ Signal_information.signal_power w'.1
        = Signal_information.signal_power si
     /\ exists q, w'.2 !! Signal_information.path si = Some q
                  /\ q `suffix_of` p.
Proof.
  intros si p h.
  assert (h !! Signal_information.path si = Some p) as H by reflexivity.
  split; [exact H|].
  exact (propagate_only_consumes Examples.abc si h p H).
Defined.

(** X4: on a network built and wired by the code, when the path is wired
    up to a node that holds no line for the hop after it, [propagate]
    raises [KeyError] of that node's label followed by the next one; the
    signal has then gathered the latency and noise of the lines before that
    node, and its path starts at the hop that could not be made. *)
Theorem propagate_fails_at_missing_line (hypot : float -> float -> float)
    (data : list (string * Node.node_dict)) (net0 net : Network.t)
    (si : Signal_information.t) (h : gmap loc (list string))
    (x : string) (rest : list string) (a b : string) (post : list string)
    (na : Node.t) :
  Network.init data = Val net0 ->
  Network.connect hypot net0 = (Val tt, net) ->
  h !! Signal_information.path si = Some ((x :: rest) ++ b :: post) ->
  x ∈ dom (Network.nodes net) ->
  all_wired net (x :: rest) = true ->
  last (x :: rest) = Some a ->
  Network.nodes net !! a = Some na ->
  Node.successive na !! (Node.label na +:+ b) = None ->
  Network.propagate net (si, h)
  = (Exn (KeyError (Node.label na +:+ b)),
     (after_walk si (links net (x :: rest)),
      <[Signal_information.path si := b :: post]> h)).
Proof.
  intros Hinit Hconn Hp [node Hn]%elem_of_dom Hw Hlast Ha Hmiss.
  pose proof (built_refs_ok _ _ _ _ Hinit Hconn) as Hrefs.
  unfold Network.propagate.
  rewrite (bind_val _ _ _ _ _ (get_path_run _ _ _ Hp)).
  cbn [app]. rewrite (bind_val _ _ _ _ _ (subscript_val _ _ _ _ Hn)).
  assert (2 * List.length (rest ++ b :: post)
          < 2 * List.length (x :: rest ++ b :: post))%nat
    as Hb by (simpl; lia).
  by rewrite (bind_exn _ _ _ _ _
                (walk_to_missing net Hrefs rest x node si h _ a na b post
                   Hn Hp Hw Hlast Ha Hmiss Hb)).
Qed.

Lemma propagate_fails_at_missing_line_witness :
  let si := Signal_information.mk 1 0 0 1%positive in
  let h := Examples.heap_with ["A"; "B"; "A"; "C"] in
  exists na,
    Network.init Examples.abc_data = Val Examples.abc_built
    /\ Network.connect Examples.hypot Examples.abc_built
       = (Val tt, Examples.abc)
    /\ h !! Signal_information.path si = Some (["A"; "B"; "A"] ++ ["C"])
    /\ "A" ∈ dom (Network.nodes Examples.abc)
    /\ all_wired Examples.abc ["A"; "B"; "A"] = true
    /\ last ["A"; "B"; "A"] = Some "A"
    /\ Network.nodes Examples.abc !! "A" = Some na
    /\ Node.successive na !! (Node.label na +:+ "C") = None
    /\ Network.propagate Examples.abc (si, h)
       = (Exn (KeyError (Node.label na +:+ "C")),
          (after_walk si (links Examples.abc ["A"; "B"; "A"]),
           <[Signal_information.path si := ["C"]]> h)).
Proof.
  intros si h.
  assert (exists na, Network.nodes Examples.abc !! "A" = Some na
                     /\ Node.successive na !! (Node.label na +:+ "C") = None)
    as (na & H7 & H8).
  { eexists. split; vm_compute; reflexivity. }
  exists na.
  assert (Network.init Examples.abc_data = Val Examples.abc_built) as H1
    by (vm_compute; reflexivity).
  assert (Network.connect Examples.hypot Examples.abc_built
          = (Val tt, Examples.abc)) as H2 by (vm_compute; reflexivity).
  assert (h !! Signal_information.path si = Some (["A"; "B"; "A"] ++ ["C"]))
    as H3 by reflexivity.
  assert ("A" ∈ dom (Network.nodes Examples.abc)) as H4.
  { apply elem_of_dom. eauto. }
  assert (all_wired Examples.abc ["A"; "B"; "A"] = true) as H5
    by (vm_compute; reflexivity).
  assert (last ["A"; "B"; "A"] = Some "A") as H6 by reflexivity.
  repeat (split; [assumption|]).
  exact (propagate_fails_at_missing_line Examples.hypot Examples.abc_data
           Examples.abc_built Examples.abc si h "A" ["B"; "A"] "A" "C" []
           na H1 H2 H3 H4 H5 H6 H7 H8).
Defined.

(** ** [connect]: when it returns, when it fails, what it keeps *)

(** A loop whose every iteration returns, under an invariant, returns. *)
Lemma for_each_progress {S A} (I : S -> Prop) (l : list A)
    (body : A -> M S unit) :
  (forall x, x ∈ l -> forall s, I s ->
     exists s', body x s = (Val tt, s') /\ I s') ->
  forall s, I s -> exists s', for_each l body s = (Val tt, s') /\ I s'.
Proof.
  induction l as [|x l IH]; intros Hb s Hs; [by exists s|].
  destruct (Hb x (list_elem_of_here _ _) s Hs) as (s1 & Hx & Hs1).
  simpl. rewrite (bind_val _ _ _ _ _ Hx).
  apply IH; [|done]. intros y Hy. apply Hb. by right.
Qed.

(** A loop that raises does so in one of its iterations, from a state the
    earlier ones led to. *)
Lemma for_each_inv_exn {S A} (R : S -> S -> Prop)
    `{!Reflexive R, !Transitive R} (l : list A) (body : A -> M S unit) :
  (forall x, x ∈ l -> preserves R (body x)) ->
  forall s e s', for_each l body s = (Exn e, s') ->
  exists x s1, x ∈ l /\ R s s1 /\ body x s1 = (Exn e, s').
Proof.
  induction l as [|x l IH]; intros Hb s e s' H; [done|].
  simpl in H. unfold bind in H.
  pose proof (Hb x (list_elem_of_here _ _) s) as Hx.
  destruct (body x s) as [[[]|e1|] s1] eqn:Hrun; simpl in Hx.
  - destruct (IH (fun y Hy => Hb y (list_elem_of_further _ _ _ Hy))
                _ _ _ H) as (y & s2 & Hy & Hs2 & Hrun2).
    exists y, s2. split; [by right|]. split; [by etrans | done].
  - simplify_eq. exists x, s. split; [left|]. by split.
  - done.
Qed.

#[local] Instance same_nodes_refl : Reflexive same_nodes.
Proof. by intros s. Qed.

#[local] Instance same_nodes_trans : Transitive same_nodes.
Proof. intros s1 s2 s3 [H1 H2] [H3 H4]. split; congruence. Qed.

Section Connect_outcome.

Import Network.

Variable hypot : float -> float -> float.

Lemma same_nodes_create_line a ax ay b :
  preserves same_nodes (create_line hypot a ax ay b).
Proof.
  intros s. unfold create_line, bind, get, subscript.
  destruct (nodes s !! b) as [nb|]; simpl; [|done].
  destruct (Node.position nb) as [|x [|y [|z p]]]; simpl; try done.
  by case_decide.
Qed.

Lemma same_nodes_create_lines : preserves same_nodes (create_lines hypot).
Proof.
  apply (preserves_get_bind same_nodes). intros s0.
  apply (preserves_for_each same_nodes). intros [a na] _.
  apply (preserves_bind same_nodes);
    [apply (preserves_unpack2 same_nodes) | intros [ax ay]].
  apply (preserves_for_each same_nodes). intros b _.
  apply same_nodes_create_line.
Qed.

Lemma same_nodes_items s s' : same_nodes s s' -> items s' = items s.
Proof. intros [Hn Ho]. unfold items. by rewrite Hn, Ho. Qed.

(** The first loop returns on a connectable network. *)
Lemma create_lines_progress s :
  connectable s -> exists s1, create_lines hypot s = (Val tt, s1).
Proof.
  intros Hc. unfold connectable in Hc. rewrite Forall_forall in Hc.
  unfold create_lines. rewrite bind_get.
  destruct (for_each_progress (fun st => nodes st = nodes s) (items s)
              (fun '(a_label, node_a) =>
                 let* (ax, ay) := unpack2 (Node.position node_a) in
                 for_each (Node.connected_nodes node_a)
                   (create_line hypot a_label ax ay))%py) with s
    as (s1 & Hrun & _); [|done|by exists s1].
  intros [a na] Hin st Hst. destruct (Hc _ Hin) as [(ax & ay & Hpos) Hall].
  simpl in Hpos, Hall. rewrite Forall_forall in Hall.
  rewrite Hpos. simpl. unfold bind at 1, ret at 1.
  apply for_each_progress; [|done].
  intros b Hb st' Hst'. destruct (Hall b Hb) as (nb & Hnb & (bx & by_ & Hpb)).
  rewrite <- Hst' in Hnb. unfold create_line. rewrite bind_get.
  rewrite (bind_val _ _ _ _ _ (subscript_val _ _ _ _ Hnb)).
  rewrite Hpb. simpl. unfold bind at 1, ret at 1.
  case_decide; [by exists st'|]. eexists. split; [reflexivity|]. done.
Qed.

(** The second loop returns once every edge has its line and its target. *)
Lemma wire_progress s :
  (forall a na b, (a, na) ∈ items s -> b ∈ Node.connected_nodes na ->
     edge_created s a b) ->
  exists s', wire s = (Val tt, s').
Proof.
  intros Hedges. unfold wire. rewrite bind_get.
  set (I := fun st : Network.t =>
              dom (nodes st) = dom (nodes s)
              /\ dom (lines st) = dom (lines s)).
  destruct (for_each_progress I (items s)
              (fun '(a_label, node_a) =>
                 for_each (Node.connected_nodes node_a) (wire_edge a_label))
              ) with s as (s' & Hrun & _); [|done|by exists s'].
  intros [a na] Hin st Hst. apply for_each_progress; [|done].
  intros b Hb st' [Hdn Hdl].
  destruct (Hedges a na b Hin Hb) as [(nb & Hnb & _) Hab].
  assert (exists l, lines st' !! (a +:+ b) = Some l) as [l Hl].
  { apply elem_of_dom. by rewrite Hdl. }
  unfold wire_edge. cbv zeta. rewrite bind_get.
  rewrite (bind_val _ _ _ _ _ (subscript_val _ _ _ _ Hl)).
  unfold set_node_successive at 1. rewrite bind_modify, bind_get.
  match goal with |- context [subscript ?m b] =>
    assert (exists nb', m !! b = Some nb') as [nb' Hnb'] end.
  { apply elem_of_dom. simpl. rewrite dom_alter_L, Hdn.
    apply elem_of_dom. eauto. }
  rewrite (bind_val _ _ _ _ _ (subscript_val _ _ _ _ Hnb')).
  eexists. split; [reflexivity|]. split; simpl.
  - by rewrite dom_alter_L.
  - by rewrite dom_alter_L.
Qed.

(** After the first loop has returned, the second returns. *)
Lemma wire_after_create_lines s s1 :
  create_lines hypot s = (Val tt, s1) -> exists s', wire s1 = (Val tt, s').
Proof.
  intros Hc. apply wire_progress. intros a na b Hin Hb.
  pose proof (same_nodes_create_lines s) as Hsame. rewrite Hc in Hsame.
  simpl in Hsame. rewrite (same_nodes_items _ _ Hsame) in Hin.
  destruct (create_lines_post hypot _ _ Hc _ _ Hin) as [_ Hall].
  by apply Hall.
Qed.

End Connect_outcome.

Lemma unpack2_bad {S} (p : list float) (s : S) :
  ~ is_pair p -> exists msg, Network.unpack2 p s = (Exn (ValueError msg), s).
Proof.
  intros Hbad. destruct p as [|x [|y [|z p]]]; simpl; unfold raise; eauto.
  destruct Hbad. by eexists _, _.
Qed.

(** X5: [connect] returns normally exactly on the networks in which the
    position of every node has two components and every label of an
    adjacency list is a node. *)
Theorem connect_returns_iff (hypot : float -> float -> float)
    (net : Network.t) :
  (exists net', Network.connect hypot net = (Val tt, net'))
  <-> connectable net.
Proof.
  split.
  - intros [net' Hconn]. unfold Network.connect in Hconn.
    apply bind_inv_val in Hconn as ([] & s1 & Hc & _).
    pose proof (same_nodes_create_lines hypot net) as Hsame.
    rewrite Hc in Hsame. destruct Hsame as [Hnodes _]. simpl in Hnodes.
    apply Forall_forall. intros [a na] Hin.
    destruct (create_lines_post hypot _ _ Hc _ _ Hin) as [Hp Hall].
    split; [done|]. apply Forall_forall. intros b Hb.
    destruct (Hall b Hb) as [Hnb _]. by rewrite Hnodes in Hnb.
  - intros Hc. destruct (create_lines_progress hypot net Hc) as [s1 Hrun].
    destruct (wire_after_create_lines hypot _ _ Hrun) as [net' Hw].
    exists net'. unfold Network.connect.
    by rewrite (bind_val _ _ _ _ _ Hrun).
Qed.

Example connect_returns_abc : connectable Examples.abc_built.
Proof.
  apply (proj1 (connect_returns_iff Examples.hypot Examples.abc_built)).
  eexists. vm_compute. reflexivity.
Qed.

(** X6: when [connect] raises, it does so while creating the lines, before
    anything is wired: no node has changed.  The exception is [KeyError] of
    a neighbour label that is no node, or the [ValueError] of a position
    that is not a pair. *)
Theorem connect_failure (hypot : float -> float -> float)
    (s s' : Network.t) (e : exn) :
  Network.connect hypot s = (Exn e, s') ->
  Network.nodes s' = Network.nodes s
  /\ Network.node_order s' = Network.node_order s
  /\ ((exists a b, (a, b) ∈ edges s /\ Network.nodes s !! b = None
                   /\ e = KeyError b)
      \/ (exists a n msg, Network.nodes s !! a = Some n
                          /\ ~ is_pair (Node.position n)
                          /\ e = ValueError msg)).
Proof.
  intros Hconn. unfold Network.connect in Hconn. unfold bind in Hconn.
  destruct (Network.create_lines hypot s) as [[[]|e1|] s1] eqn:Hc.
  { destruct (wire_after_create_lines hypot _ _ Hc) as [s2 Hw].
    by rewrite Hw in Hconn. }
  2:{ done. }
  simplify_eq.
  pose proof (same_nodes_create_lines hypot s) as Hsame.
  rewrite Hc in Hsame. destruct Hsame as [Hn Ho]. simpl in Hn, Ho.
  split; [done|]. split; [done|].
  unfold Network.create_lines in Hc. rewrite bind_get in Hc.
  apply (for_each_inv_exn same_nodes) in Hc
    as ([a na] & s1 & Hin & Hs1 & Hrun).
  2:{ intros [a na] _.
      apply (preserves_bind same_nodes);
        [apply (preserves_unpack2 same_nodes) | intros [ax ay]].
      apply (preserves_for_each same_nodes). intros b _.
      apply same_nodes_create_line. }
  pose proof Hin as [_ Hna]%elem_of_items.
  assert (~ is_pair (Node.position na) \/ is_pair (Node.position na))
    as [Hbad|(ax & ay & Hpos)].
  { destruct (Node.position na) as [|x [|y [|z p]]];
      first [by right; eexists _, _ | left; by intros (? & ? & ?)]. }
  { right. destruct (unpack2_bad (Node.position na) s1 Hbad) as [msg Hu].
    rewrite (bind_exn _ _ _ _ _ Hu) in Hrun. simplify_eq.
    by exists a, na, msg. }
  rewrite Hpos in Hrun. simpl in Hrun. unfold bind at 1, ret at 1 in Hrun.
  apply (for_each_inv_exn same_nodes) in Hrun
    as (b & s2 & Hb & Hs2 & Hrun).
  2:{ intros b _. apply same_nodes_create_line. }
  assert (Network.nodes s2 = Network.nodes s) as Hnodes.
  { destruct Hs1 as [H1 _]. destruct Hs2 as [H2 _]. congruence. }
  unfold Network.create_line in Hrun. rewrite bind_get in Hrun.
  unfold subscript at 1 in Hrun. rewrite Hnodes in Hrun.
  destruct (Network.nodes s !! b) as [nb|] eqn:Hnb.
  - right. unfold bind at 1, ret at 1 in Hrun.
    assert (~ is_pair (Node.position nb) \/ is_pair (Node.position nb))
      as [Hbad|(bx & by_ & Hpb)].
    { destruct (Node.position nb) as [|x [|y [|z p]]];
        first [by right; eexists _, _ | left; by intros (? & ? & ?)]. }
    + destruct (unpack2_bad (Node.position nb) s2 Hbad) as [msg Hu].
      rewrite (bind_exn _ _ _ _ _ Hu) in Hrun. simplify_eq.
      by exists b, nb, msg.
    + rewrite Hpb in Hrun. simpl in Hrun. unfold bind at 1, ret at 1 in Hrun.
      case_decide; by simplify_eq.
  - left. unfold bind, raise in Hrun. simplify_eq. exists a, b.
    split; [|done]. apply elem_of_edges. eauto.
Qed.

Lemma connect_failure_witness :
  exists e s',
    Network.connect Examples.hypot Examples.dangling = (Exn e, s')
    /\ Network.nodes s' = Network.nodes Examples.dangling
    /\ Network.node_order s' = Network.node_order Examples.dangling
    /\ ((exists a b, (a, b) ∈ edges Examples.dangling
                     /\ Network.nodes Examples.dangling !! b = None
                     /\ e = KeyError b)
        \/ (exists a n msg, Network.nodes Examples.dangling !! a = Some n
                            /\ ~ is_pair (Node.position n)
                            /\ e = ValueError msg)).
Proof.
  assert (exists e s',
            Network.connect Examples.hypot Examples.dangling = (Exn e, s'))
    as (e & s' & H).
  { vm_compute. eexists _, _. reflexivity. }
  exists e, s'. split; [exact H|].
  exact (connect_failure Examples.hypot Examples.dangling s' e H).
Defined.

(** X7: whatever its outcome, [connect] keeps the nodes in their order and
    changes no label, position or adjacency list; a line that was there
    stays, with its label and its length. *)
Theorem connect_keeps_nodes (hypot : float -> float -> float)
    (s : Network.t) :
  let s' := (Network.connect hypot s).2 in
  Network.node_order s' = Network.node_order s
  /\ dom (Network.nodes s') = dom (Network.nodes s)
  /\ (forall a n', Network.nodes s' !! a = Some n' ->
        exists n, Network.nodes s !! a = Some n
                  /\ Node.label n' = Node.label n
                  /\ Node.position n' = Node.position n
                  /\ Node.connected_nodes n' = Node.connected_nodes n)
  /\ (forall k l, Network.lines s !! k = Some l ->
        exists l', Network.lines s' !! k = Some l'
                   /\ Line.label l' = Line.label l
                   /\ Line.length l' = Line.length l).
Proof.
  intros s'. pose proof (grows_connect hypot s) as Hg. fold s' in Hg.
  pose proof Hg as (Hord & Hdom & _ & Hlines).
  split; [done|]. split; [done|]. split.
  - intros a n' Hn'.
    destruct (grows_nodes_inv _ _ _ _ Hg Hn') as (n & Hn & (? & ? & ? & _)).
    by exists n.
  - intros k l Hl. destruct (Hlines k l Hl) as (l' & Hl' & (? & ? & _)).
    by exists l'.
Qed.

(** ** [connect]: nothing is wired but the edges *)

Section Wired_from.

Import Network.

Variable hypot : float -> float -> float.
Variable s0 : Network.t.

Lemma wired_from_create_line a ax ay b :
  preserves (keeps (wired_from s0)) (create_line hypot a ax ay b).
Proof.
  intros s [Hn Hl]. unfold create_line, bind, get, subscript.
  destruct (nodes s !! b) as [nb|]; simpl; [|done].
  destruct (Node.position nb) as [|x [|y [|z p]]]; simpl; try done.
  case_decide; [done|]. split; simpl; [exact Hn|].
  intros k l b' r. destruct (decide ((a +:+ b) = k)) as [<-|Hne].
  - rewrite lookup_insert_eq. intros [= <-]. simpl.
    by rewrite lookup_empty.
  - rewrite lookup_insert_ne by done. apply Hl.
Qed.

Lemma wired_from_wire_edge a b :
  (a, b) ∈ edges s0 -> preserves (keeps (wired_from s0)) (wire_edge a b).
Proof.
  intros Hedge s [Hn Hl]. unfold wire_edge, bind, get, subscript. simpl.
  destruct (lines s !! (a +:+ b)) as [l0|] eqn:El; simpl; [|done].
  assert (forall a' n k r,
            alter (fun n => Node.mk (Node.label n) (Node.position n)
                              (Node.connected_nodes n)
                              (<[a +:+ b := LineRef (a +:+ b)]>
                                 (Node.successive n)))
                  a (nodes s) !! a' = Some n ->
            Node.successive n !! k = Some r ->
            exists b', (a', b') ∈ edges s0 /\ k = a' +:+ b') as Hn'.
  { intros a' n k r Ha Hk. destruct (decide (a = a')) as [<-|Hne].
    - rewrite lookup_alter_eq in Ha.
      destruct (nodes s !! a) as [n0|] eqn:E; simplify_eq/=.
      destruct (decide ((a +:+ b) = k)) as [<-|Hne]; [by exists b|].
      rewrite lookup_insert_ne in Hk by done. eauto.
    - rewrite lookup_alter_ne in Ha by done. eauto. }
  match goal with |- context [alter ?f a (nodes s) !! b] =>
    destruct (alter f a (nodes s) !! b) eqn:E end; simpl;
    (split; simpl; [exact Hn'|]); [|exact Hl].
  intros k l b' r Hk Hb'. destruct (decide ((a +:+ b) = k)) as [<-|Hne].
  - rewrite lookup_alter_eq, El in Hk. simplify_eq/=.
    destruct (decide (b = b')) as [<-|Hne]; [by exists a|].
    rewrite lookup_insert_ne in Hb' by done. eauto.
  - rewrite lookup_alter_ne in Hk by done. eauto.
Qed.

Lemma wired_from_connect s' :
  fresh_network s0 -> connect hypot s0 = (Val tt, s') -> wired_from s0 s'.
Proof.
  intros (Hempty & Hsucc & _) Hconn. unfold connect in Hconn.
  apply bind_inv_val in Hconn as ([] & s1 & Hc & Hw).
  assert (wired_from s0 s0) as H0.
  { split.
    - intros a n k r Ha Hk. rewrite (Hsucc _ _ Ha) in Hk.
      by rewrite lookup_empty in Hk.
    - intros k l b r Hk. rewrite Hempty in Hk.
      by rewrite lookup_empty in Hk. }
  pose proof (same_nodes_create_lines hypot s0) as Hsame.
  rewrite Hc in Hsame. simpl in Hsame.
  assert (wired_from s0 s1) as H1.
  { unfold create_lines in Hc. rewrite bind_get in Hc.
    match type of Hc with for_each _ ?body _ = _ =>
      assert (forall x, x ∈ items s0 ->
                preserves (keeps (wired_from s0)) (body x)) as Hbody end.
    { intros [a na] _.
      apply (preserves_bind (keeps (wired_from s0)));
        [apply (preserves_unpack2 (keeps (wired_from s0))) | intros [ax ay]].
      apply (preserves_for_each (keeps (wired_from s0))). intros b _.
      apply wired_from_create_line. }
    pose proof (preserves_for_each (keeps (wired_from s0))
                  (items s0) _ Hbody s0) as Hk.
    rewrite Hc in Hk. by apply Hk. }
  unfold wire in Hw. rewrite bind_get in Hw.
  rewrite (same_nodes_items _ _ Hsame) in Hw.
  match type of Hw with for_each _ ?body _ = _ =>
    assert (forall x, x ∈ items s0 ->
              preserves (keeps (wired_from s0)) (body x)) as Hbody end.
  { intros [a na] Hin.
    apply (preserves_for_each (keeps (wired_from s0))). intros b Hb.
    apply wired_from_wire_edge. apply elem_of_edges. eauto. }
  pose proof (preserves_for_each (keeps (wired_from s0))
                (items s0) _ Hbody s1) as Hk.
  rewrite Hw in Hk. by apply Hk.
Qed.

End Wired_from.

(** What is known of a network built by [__init__] and wired by
    [connect], for an edge of its adjacency lists. *)
Lemma built_edge hypot data net0 net a b :
  Network.init data = Val net0 ->
  Network.connect hypot net0 = (Val tt, net) ->
  (a, b) ∈ edges net0 ->
  exists na0 na,
    Network.nodes net0 !! a = Some na0 /\ b ∈ Node.connected_nodes na0
    /\ Network.nodes net !! a = Some na /\ node_le na0 na
    /\ edge_created net a b /\ edge_wired net a b.
Proof.
  intros Hinit Hconn (na0 & Hin0 & Hb0)%elem_of_edges.
  pose proof (grows_connect hypot net0) as Hg. rewrite Hconn in Hg.
  simpl in Hg.
  pose proof (connect_post hypot _ _ Hconn) as Hpost.
  apply elem_of_items in Hin0 as [Ho0 Hn0].
  pose proof Hg as (Hord & _ & Hfw & _).
  destruct (Hfw _ _ Hn0) as (na & Hna & Hle).
  assert ((a, na) ∈ Network.items net) as Hin.
  { apply elem_of_items. by rewrite Hord. }
  destruct (Hpost _ _ Hin) as [_ Hb].
  pose proof Hle as (_ & _ & Hconna & _). rewrite Hconna in Hb.
  destruct (Hb b Hb0) as [Hcreated Hwired].
  by exists na0, na.
Qed.

(** X8: on a network built by the code, [connect] creates a line for every
    edge of the adjacency lists and no other: the keys of [lines] are
    exactly the concatenated labels of the edges, and every line bears its
    key as label. *)
Theorem connect_lines_are_edges (hypot : float -> float -> float)
    (data : list (string * Node.node_dict)) (net0 net : Network.t) :
  Network.init data = Val net0 ->
  Network.connect hypot net0 = (Val tt, net) ->
  dom (Network.lines net) = list_to_set (edge_key <$> edges net0)
  /\ forall k l, Network.lines net !! k = Some l -> Line.label l = k.
Proof.
  intros Hinit Hconn.
  destruct (init_fresh _ _ Hinit) as (Hempty & _).
  destruct (lines_of_edges_connect hypot net0 net Hempty Hconn) as [_ Hlen].
  split.
  - apply set_eq. intros k. rewrite elem_of_list_to_set, list_elem_of_fmap.
    split.
    + intros [l Hl]%elem_of_dom.
      destruct (Hlen _ _ Hl)
        as (a & na & b & nb & ax & ay & bx & by_ & Hin & Hb & _ & _ & _
            & Hk & _).
      exists (a, b). split; [done|]. apply elem_of_edges. eauto.
    + intros ([a b] & -> & Hedge).
      destruct (built_edge _ _ _ _ _ _ Hinit Hconn Hedge)
        as (_ & _ & _ & _ & _ & _ & [_ Hdom] & _).
      exact Hdom.
  - intros k l Hl.
    by destruct (Hlen _ _ Hl)
      as (a & na & b & nb & ax & ay & bx & by_ & _ & _ & _ & _ & _ & _
          & Hlabel & _).
Qed.

Lemma connect_lines_are_edges_witness :
  Network.init Examples.abc_data = Val Examples.abc_built
  /\ Network.connect Examples.hypot Examples.abc_built
     = (Val tt, Examples.abc)
  /\ dom (Network.lines Examples.abc)
     = list_to_set (edge_key <$> edges Examples.abc_built)
  /\ forall k l, Network.lines Examples.abc !! k = Some l -> Line.label l = k.
Proof.
  assert (Network.init Examples.abc_data = Val Examples.abc_built) as H1
    by (vm_compute; reflexivity).
  assert (Network.connect Examples.hypot Examples.abc_built
          = (Val tt, Examples.abc)) as H2 by (vm_compute; reflexivity).
  split; [exact H1|]. split; [exact H2|].
  exact (connect_lines_are_edges Examples.hypot Examples.abc_data
           Examples.abc_built Examples.abc H1 H2).
Defined.

(** X9: on a network built and wired by the code, the [successive] of the
    node owned under [a] has an entry for each label of its adjacency list,
    under [a] followed by that label, and no other entry. *)
Theorem node_successive_keys (hypot : float -> float -> float)
    (data : list (string * Node.node_dict)) (net0 net : Network.t)
    (a : string) (na : Node.t) :
  Network.init data = Val net0 ->
  Network.connect hypot net0 = (Val tt, net) ->
  Network.nodes net !! a = Some na ->
  dom (Node.successive na)
  = list_to_set ((fun b => a +:+ b) <$> Node.connected_nodes na).
Proof.
  intros Hinit Hconn Hna.
  pose proof (init_fresh _ _ Hinit) as Hfresh.
  destruct (wired_from_connect hypot net0 net Hfresh Hconn) as [Hwf _].
  pose proof (grows_connect hypot net0) as Hg. rewrite Hconn in Hg.
  simpl in Hg.
  destruct (grows_nodes_inv _ _ _ _ Hg Hna) as (na0 & Hna0 & Hle).
  pose proof Hle as (_ & _ & Hconna & _).
  destruct Hfresh as (_ & _ & _ & Hord).
  assert ((a, na0) ∈ Network.items net0) as Hin0.
  { apply elem_of_items. split; [|done]. apply Hord, elem_of_dom. eauto. }
  apply set_eq. intros k. rewrite elem_of_list_to_set, list_elem_of_fmap.
  split.
  - intros [r Hr]%elem_of_dom.
    destruct (Hwf _ _ _ _ Hna Hr) as (b & Hedge & ->).
    exists b. split; [done|]. rewrite Hconna.
    apply elem_of_edges in Hedge as (na0' & [_ Hn0']%elem_of_items & Hb).
    rewrite Hna0 in Hn0'. by injection Hn0' as <-.
  - intros (b & -> & Hb). rewrite Hconna in Hb.
    assert ((a, b) ∈ edges net0) as Hedge by (apply elem_of_edges; eauto).
    destruct (built_edge _ _ _ _ _ _ Hinit Hconn Hedge)
      as (_ & na' & _ & _ & Hna' & _ & _ & [(n & Hn & Hs) _]).
    rewrite Hna in Hn. injection Hn as <-. apply elem_of_dom. eauto.
Qed.

Lemma node_successive_keys_witness :
  exists na,
    Network.init Examples.abc_data = Val Examples.abc_built
    /\ Network.connect Examples.hypot Examples.abc_built
       = (Val tt, Examples.abc)
    /\ Network.nodes Examples.abc !! "B" = Some na
    /\ dom (Node.successive na)
       = list_to_set ((fun b => "B" +:+ b) <$> Node.connected_nodes na).
Proof.
  assert (exists na, Network.nodes Examples.abc !! "B" = Some na)
    as [na H3] by (vm_compute; eexists; reflexivity).
  exists na.
  assert (Network.init Examples.abc_data = Val Examples.abc_built) as H1
    by (vm_compute; reflexivity).
  assert (Network.connect Examples.hypot Examples.abc_built
          = (Val tt, Examples.abc)) as H2 by (vm_compute; reflexivity).
  split; [exact H1|]. split; [exact H2|]. split; [exact H3|].
  exact (node_successive_keys Examples.hypot Examples.abc_data
           Examples.abc_built Examples.abc "B" na H1 H2 H3).
Defined.

(** X10: when distinct edges have distinct keys, the line of an edge
    leads to the target of that edge and nowhere else: its [successive] has
    the one entry of the target's label. *)
Theorem line_successive_single (hypot : float -> float -> float)
    (data : list (string * Node.node_dict)) (net0 net : Network.t)
    (a b : string) :
  Network.init data = Val net0 ->
  Network.connect hypot net0 = (Val tt, net) ->
  keys_unique net0 ->
  (a, b) ∈ edges net0 ->
  exists l, Network.lines net !! (a +:+ b) = Some l
            /\ Line.successive l = {[ b := NodeRef b ]}.
Proof.
  intros Hinit Hconn Huniq Hedge.
  pose proof (init_fresh _ _ Hinit) as Hfresh.
  destruct (wired_from_connect hypot net0 net Hfresh Hconn) as [_ Hwf].
  destruct (built_edge _ _ _ _ _ _ Hinit Hconn Hedge)
    as (_ & _ & _ & _ & _ & _ & _ & [_ (l & Hl & Hlb)]).
  exists l. split; [done|]. apply map_eq. intros b'.
  destruct (decide (b = b')) as [<-|Hne].
  { by rewrite lookup_singleton_eq. }
  rewrite lookup_singleton_ne by done.
  destruct (Line.successive l !! b') as [r|] eqn:Hr; [|done].
  destruct (Hwf _ _ _ _ Hl Hr) as (a' & Hedge' & Hkey).
  unfold keys_unique in Huniq. rewrite Forall_forall in Huniq.
  pose proof (Huniq _ Hedge) as Hall. rewrite Forall_forall in Hall.
  pose proof (Hall _ Hedge' Hkey) as Heq. by simplify_eq.
Qed.

Lemma line_successive_single_witness :
  Network.init Examples.abc_data = Val Examples.abc_built
  /\ Network.connect Examples.hypot Examples.abc_built
     = (Val tt, Examples.abc)
  /\ keys_unique Examples.abc_built
  /\ ("B", "C") ∈ edges Examples.abc_built
  /\ exists l, Network.lines Examples.abc !! ("B" +:+ "C") = Some l
               /\ Line.successive l = {[ "C" := NodeRef "C" ]}.
Proof.
  assert (Network.init Examples.abc_data = Val Examples.abc_built) as H1
    by (vm_compute; reflexivity).
  assert (Network.connect Examples.hypot Examples.abc_built
          = (Val tt, Examples.abc)) as H2 by (vm_compute; reflexivity).
  assert (keys_unique Examples.abc_built) as H3.
  { unfold keys_unique. apply (bool_decide_unpack _). vm_compute. exact I. }
  assert (("B", "C") ∈ edges Examples.abc_built) as H4.
  { apply (bool_decide_unpack _). vm_compute. exact I. }
  repeat (split; [assumption|]).
  exact (line_successive_single Examples.hypot Examples.abc_data
           Examples.abc_built Examples.abc "B" "C" H1 H2 H3 H4).
Defined.

Lemma connect_wires_unique_keys_witness :
  Network.init Examples.abc_data = Val Examples.abc_built
  /\ Network.connect Examples.hypot Examples.abc_built
     = (Val tt, Examples.abc)
  /\ keys_unique Examples.abc_built
  /\ ("B", "C") ∈ edges Examples.abc_built
  /\ exists na nb ax ay bx by_ l,
      Network.nodes Examples.abc !! "B" = Some na
      /\ Network.nodes Examples.abc !! "C" = Some nb
      /\ Node.position na = [ax; ay] /\ Node.position nb = [bx; by_]
      /\ Network.lines Examples.abc !! ("B" +:+ "C") = Some l
      /\ Line.label l = "B" +:+ "C"
      /\ Line.length l = Examples.hypot (bx - ax)%float (by_ - ay)%float
      /\ Node.successive na !! ("B" +:+ "C") = Some (LineRef ("B" +:+ "C"))
      /\ Line.successive l !! "C" = Some (NodeRef "C").
Proof.
  assert (Network.init Examples.abc_data = Val Examples.abc_built) as H1
    by (vm_compute; reflexivity).
  assert (Network.connect Examples.hypot Examples.abc_built
          = (Val tt, Examples.abc)) as H2 by (vm_compute; reflexivity).
  assert (keys_unique Examples.abc_built) as H3.
  { unfold keys_unique. apply (bool_decide_unpack _). vm_compute. exact I. }
  assert (("B", "C") ∈ edges Examples.abc_built) as H4.
  { apply (bool_decide_unpack _). vm_compute. exact I. }
  repeat (split; [assumption|]).
  exact (connect_wires_unique_keys Examples.hypot Examples.abc_data
           Examples.abc_built Examples.abc "B" "C" H1 H2 H3 H4).
Defined.

(** ** Keys of lines: labels of one length never collide *)

Lemma string_app_inj (a a' b b' : string) :
  String.length a = String.length a' ->
  a +:+ b = a' +:+ b' -> a = a' /\ b = b'.
Proof.
  revert a'. induction a as [|c a IH]; intros [|c' a'] Hlen Heq;
    simpl in *; try done.
  injection Hlen as Hlen. injection Heq as -> Heq.
  by destruct (IH a' Hlen Heq) as [-> ->].
Qed.

(** X11: when the keys of all nodes have the same number of characters,
    as one-letter labels do, distinct edges of the adjacency lists get
    distinct line keys. *)
Theorem same_length_keys_unique (net : Network.t) (n : nat) :
  Forall (fun a => String.length a = n) (Network.node_order net) ->
  keys_unique net.
Proof.
  intros Hlen. rewrite Forall_forall in Hlen.
  unfold keys_unique. apply Forall_forall. intros [a b] Hab.
  apply Forall_forall. intros [a' b'] Hab' Hkey.
  apply elem_of_edges in Hab as (na & [Ha _]%elem_of_items & _).
  apply elem_of_edges in Hab' as (na' & [Ha' _]%elem_of_items & _).
  unfold edge_key in Hkey. simpl in Hkey.
  destruct (string_app_inj a a' b b') as [-> ->]; [|done..].
  by rewrite (Hlen _ Ha), (Hlen _ Ha').
Qed.

Lemma same_length_keys_unique_witness :
  Forall (fun a => String.length a = 1%nat)
    (Network.node_order Examples.abc_built)
  /\ keys_unique Examples.abc_built.
Proof.
  assert (Forall (fun a => String.length a = 1%nat)
            (Network.node_order Examples.abc_built)) as H.
  { apply (bool_decide_unpack _). vm_compute. exact I. }
  split; [exact H|].
  exact (same_length_keys_unique Examples.abc_built 1%nat H).
Defined.

(** ** [find_paths]: wiring, exceptions, repetitions *)

Lemma for_each_ext {S A} (l : list A) (f g : A -> M S unit) :
  (forall x, x ∈ l -> forall s, f x s = g x s) ->
  forall s, for_each l f s = for_each l g s.
Proof.
  induction l as [|x l IH]; intros Hfg s; [done|]. simpl. unfold bind.
  rewrite (Hfg x (list_elem_of_here _ _) s).
  destruct (g x s) as [[[]|e|] s1]; [|done..].
  apply IH. intros y Hy. apply Hfg. by right.
Qed.

(** The search reads the adjacency lists only, which wiring leaves
    alone. *)
Lemma dfs_grows s s' end_ budget :
  grows s s' ->
  forall curr path ps,
    Network.dfs s' end_ budget curr path ps
    = Network.dfs s end_ budget curr path ps.
Proof.
  intros Hg. induction budget as [|budget IH]; intros curr path ps; [done|].
  cbn [Network.dfs]. case_decide; [done|].
  destruct (Network.nodes s !! curr) as [n|] eqn:Hn.
  - destruct Hg as (_ & _ & Hfw & _).
    destruct (Hfw _ _ Hn) as (n' & Hn' & (_ & _ & Hconn & _)).
    rewrite (bind_val _ _ _ _ _ (subscript_val _ _ _ _ Hn')).
    rewrite (bind_val _ _ _ _ _ (subscript_val _ _ _ _ Hn)).
    rewrite Hconn.
    apply for_each_ext. intros nxt _ ps'. case_decide; [done|]. apply IH.
  - destruct Hg as (_ & Hdom & _).
    assert (Network.nodes s' !! curr = None) as Hn'.
    { apply not_elem_of_dom. rewrite Hdom. by apply not_elem_of_dom. }
    unfold bind, subscript. by rewrite Hn, Hn'.
Qed.

(** X12: [connect], whatever its outcome, does not change what
    [find_paths] returns: the paths found before wiring are those found
    after it. *)
Theorem find_paths_after_connect (hypot : float -> float -> float)
    (s : Network.t) (start end_ : string) :
  Network.find_paths (Network.connect hypot s).2 start end_
  = Network.find_paths s start end_.
Proof.
  pose proof (grows_connect hypot s) as Hg.
  pose proof Hg as (_ & Hdom & _).
  unfold Network.find_paths.
  rewrite <- (size_dom (D:=gset string) (Network.nodes (_).2)), Hdom,
    size_dom.
  rewrite (dfs_grows _ _ _ _ Hg).
  repeat case_decide; tauto.
Qed.

(** The search raises nothing but the [KeyError] of a label it was led to
    by an adjacency list and that is no node. *)
Lemma dfs_inv_exn net end_ budget :
  forall curr path ps e ps',
  curr ∈ dom (Network.nodes net) \/ (exists a, adjacent net a curr) ->
  Network.dfs net end_ budget curr path ps = (Exn e, ps') ->
  exists a z, adjacent net a z /\ (z ∉ dom (Network.nodes net))
              /\ e = KeyError z.
Proof.
  induction budget as [|budget IH]; intros curr path ps e ps' Hcurr H;
    [done|].
  cbn [Network.dfs] in H. case_decide; [done|].
  unfold subscript at 1 in H.
  destruct (Network.nodes net !! curr) as [node|] eqn:Hnode.
  - unfold bind at 1, ret at 1 in H.
    apply (for_each_inv_exn (keeps (fun _ => True))) in H
      as (nxt & ps1 & Hnxt & _ & Hrun); [|by intros nxt _ ps1 _].
    case_decide; [done|]. eapply IH; [|exact Hrun].
    right. exists curr, node. done.
  - unfold bind, raise in H. simplify_eq.
    destruct Hcurr as [Hin|[a Ha]].
    + apply elem_of_dom in Hin as [? ?]. congruence.
    + exists a, curr. split; [done|]. split; [|done].
      by apply not_elem_of_dom.
Qed.

(** X13: [find_paths] raises only when an adjacency list names a label
    that is no node, and then the [KeyError] of such a label. *)
Theorem find_paths_raises_unknown (net : Network.t) (start end_ : string)
    (e : exn) :
  Network.find_paths net start end_ = Exn e ->
  exists a z, adjacent net a z /\ (z ∉ dom (Network.nodes net))
              /\ e = KeyError z.
Proof.
  unfold Network.find_paths. case_decide as Hdec; [done|]. intros H.
  destruct (Network.dfs net end_ (S (size (Network.nodes net))) start
              [start] []) as [[[]|e1|] ps] eqn:Hrun; simplify_eq.
  eapply dfs_inv_exn; [|exact Hrun]. left.
  destruct (decide (start ∈ dom (Network.nodes net))); tauto.
Qed.

Lemma find_paths_raises_unknown_witness :
  Network.find_paths Examples.dangling "A" "B" = Exn (KeyError "Z")
  /\ exists a z, adjacent Examples.dangling a z
                 /\ (z ∉ dom (Network.nodes Examples.dangling))
                 /\ KeyError "Z" = KeyError z.
Proof.
  assert (Network.find_paths Examples.dangling "A" "B" = Exn (KeyError "Z"))
    as H by (vm_compute; reflexivity).
  split; [exact H|].
  exact (find_paths_raises_unknown Examples.dangling "A" "B"
           (KeyError "Z") H).
Defined.

Section Dfs_nodup.

Import Network.

Variable net : Network.t.
Variable end_ : string.
Hypothesis Hclosed : adjacency_closed net.
Hypothesis Hnodup : adjacency_nodup net.

(** The continuations through different neighbours differ. *)
Lemma extends_disjoint path nxt nxt' q :
  extends net end_ (path ++ [nxt]) nxt q ->
  extends net end_ (path ++ [nxt']) nxt' q -> nxt = nxt'.
Proof.
  intros (ext & -> & _) (ext' & Heq & _).
  rewrite <- !app_assoc in Heq. apply app_inv_head in Heq.
  by injection Heq.
Qed.

(** When no adjacency list repeats a label the search appends each
    continuation once. *)
Lemma dfs_spec_nodup budget : forall curr path ps,
  last path = Some curr -> NoDup path ->
  Forall (fun x => x ∈ dom (nodes net)) path ->
  size (nodes net) < budget + List.length path ->
  exists new, dfs net end_ budget curr path ps = (Val tt, ps ++ new)
              /\ (forall q, q ∈ new <-> extends net end_ path curr q)
              /\ NoDup new.
Proof.
  induction budget as [|budget IH]; intros curr path ps Hlast Hnd Hdom Hsize.
  { pose proof (NoDup_length_le_size _ _ Hnd Hdom). simpl in Hsize. lia. }
  cbn [dfs]. destruct (decide (curr = end_)) as [->|Hne].
  { exists [path]. split; [done|]. split; [|apply NoDup_singleton].
    intros q. by apply extends_end. }
  assert (curr ∈ dom (nodes net)) as [node Hnode]%elem_of_dom.
  { rewrite Forall_forall in Hdom. apply Hdom.
    apply last_Some in Hlast as [l' ->]. set_solver. }
  rewrite (bind_val _ _ _ _ _ (subscript_val _ _ _ _ Hnode)).
  assert (forall l, l ⊆ Node.connected_nodes node -> NoDup l -> forall ps,
    exists new,
      for_each l (fun nxt => if decide (nxt ∈ path) then ret tt
                             else dfs net end_ budget nxt (path ++ [nxt])) ps
      = (Val tt, ps ++ new)
      /\ (forall q, q ∈ new <->
           exists nxt, nxt ∈ l /\ (nxt ∉ path)
                       /\ extends net end_ (path ++ [nxt]) nxt q)
      /\ NoDup new)
    as Hloop.
  { clear ps. induction l as [|nxt l IHl]; intros Hsub Hl ps.
    { exists []. split; [by rewrite app_nil_r|].
      split; [|apply NoDup_nil_2]. intros q. split.
      - by intros ?%elem_of_nil.
      - intros (nxt & ?%elem_of_nil & _). done. }
    assert (nxt ∈ Node.connected_nodes node) as Hin by (apply Hsub; left).
    assert (l ⊆ Node.connected_nodes node) as Hsub' by set_solver.
    apply NoDup_cons in Hl as [Hnotin Hl].
    cbn [for_each]. destruct (decide (nxt ∈ path)) as [Hp|Hp].
    - rewrite (bind_val _ _ ps tt ps) by done.
      destruct (IHl Hsub' Hl ps) as (new & Hrun & Hnew & Hnd'). exists new.
      split; [done|]. split; [|done]. intros q. rewrite Hnew. split.
      + intros (x & ? & ? & ?). exists x. split; [by right | done].
      + intros (x & [->|?]%elem_of_cons & ? & ?); [done|]. by exists x.
    - destruct (IH nxt (path ++ [nxt]) ps) as (new1 & Hrun1 & Hnew1 & Hnd1).
      + apply last_snoc.
      + apply NoDup_app. split; [done|]. split; [|apply NoDup_singleton].
        intros x Hx ->%list_elem_of_singleton. done.
      + apply Forall_app. split; [done|]. apply Forall_singleton.
        pose proof (Hclosed curr node Hnode) as Hall. simpl in Hall.
        rewrite Forall_forall in Hall. by apply Hall.
      + rewrite length_app. simpl. lia.
      + rewrite (bind_val _ _ _ _ _ Hrun1).
        destruct (IHl Hsub' Hl (ps ++ new1)) as (new2 & Hrun2 & Hnew2 & Hnd2).
        exists (new1 ++ new2). split; [by rewrite app_assoc|]. split.
        * intros q. rewrite elem_of_app, Hnew1, Hnew2. split.
          -- intros [H|(x & ? & ? & ?)]; [exists nxt; split; [left|done] |].
             exists x. split; [by right|done].
          -- intros (x & [->|?]%elem_of_cons & ? & ?); [by left|].
             right. by exists x.
        * apply NoDup_app. split; [done|]. split; [|done].
          intros q Hq1 Hq2. apply Hnew1 in Hq1.
          apply Hnew2 in Hq2 as (nxt' & Hin' & _ & Hq2).
          by rewrite (extends_disjoint _ _ _ _ Hq1 Hq2) in Hnotin. }
  destruct (Hloop _ (reflexivity _) (Hnodup curr node Hnode) ps)
    as (new & Hrun & Hnew & Hnd').
  exists new. split; [done|]. split; [|done]. intros q. rewrite Hnew.
  symmetry. by apply extends_step.
Qed.

End Dfs_nodup.

(** X14: in a topology whose adjacency lists name only nodes and name none
    twice, [find_paths] returns no path twice. *)
Theorem find_paths_no_repetition (net : Network.t) (start end_ : string) :
  adjacency_closed net -> adjacency_nodup net ->
  exists paths, Network.find_paths net start end_ = Val paths
                /\ NoDup paths.
Proof.
  intros Hclosed Hnodup. unfold Network.find_paths.
  case_decide as Hdec.
  { exists []. split; [done | apply NoDup_nil_2]. }
  assert (start ∈ dom (Network.nodes net)) as Hs.
  { destruct (decide (start ∈ dom (Network.nodes net))); tauto. }
  destruct (dfs_spec_nodup net end_ Hclosed Hnodup
              (S (size (Network.nodes net))) start [start] [])
    as (new & Hrun & _ & Hnd).
  - done.
  - apply NoDup_singleton.
  - by apply Forall_singleton.
  - simpl. lia.
  - rewrite Hrun. by exists new.
Qed.

Lemma find_paths_no_repetition_witness :
  adjacency_closed Examples.abc /\ adjacency_nodup Examples.abc
  /\ exists paths, Network.find_paths Examples.abc "A" "C" = Val paths
                   /\ NoDup paths.
Proof.
  assert (adjacency_closed Examples.abc) as H1.
  { unfold adjacency_closed. apply (bool_decide_unpack _).
    vm_compute. exact I. }
  assert (adjacency_nodup Examples.abc) as H2.
  { unfold adjacency_nodup. apply (bool_decide_unpack _).
    vm_compute. exact I. }
  split; [exact H1|]. split; [exact H2|].
  exact (find_paths_no_repetition Examples.abc "A" "C" H1 H2).
Defined.

(** An adjacency list that names a neighbour twice makes [find_paths]
    return the path through it twice. *)
Example find_paths_repeated_neighbor :
  Network.find_paths
    (Examples.network_of
       [("A"%string, Examples.entry [0; 0] ["B"; "B"]%string);
        ("B"%string, Examples.entry [0; 3] [])])
    "A" "B"
  = Val [["A"; "B"]; ["A"; "B"]]%string.
Proof. vm_compute. reflexivity. Qed.

(** ** From [find_paths] to [propagate] *)

(** In a closed network [find_paths] returns the simple paths. *)
Lemma find_paths_closed net start end_ :
  adjacency_closed net ->
  exists paths, Network.find_paths net start end_ = Val paths
                /\ forall q, q ∈ paths -> simple_path net start end_ q.
Proof.
  intros Hclosed. unfold Network.find_paths. case_decide as Hdec.
  { exists []. split; [done|]. by intros q ?%elem_of_nil. }
  assert (start ∈ dom (Network.nodes net)) as Hs.
  { destruct (decide (start ∈ dom (Network.nodes net))); tauto. }
  destruct (dfs_spec net end_ Hclosed (S (size (Network.nodes net)))
              start [start] []) as (new & Hrun & Hnew).
  - done.
  - apply NoDup_singleton.
  - by apply Forall_singleton.
  - simpl. lia.
  - rewrite Hrun. exists new. split; [done|]. intros q Hq.
    apply extends_simple_path; [done..|]. by apply Hnew.
Qed.

Lemma adjacency_closed_grows s s' :
  grows s s' -> adjacency_closed s -> adjacency_closed s'.
Proof.
  intros Hg Hc a n' Hn'. simpl.
  destruct (grows_nodes_inv _ _ _ _ Hg Hn') as (n & Hn & (_ & _ & -> & _)).
  destruct Hg as (_ & -> & _). exact (Hc a n Hn).
Qed.

(** Along a chain of wired hops the whole path is wired. *)
Lemma chain_all_wired net p : forall a,
  (forall x y, adjacent net x y -> hop_wired net x y = true) ->
  chain net (a :: p) -> all_wired net (a :: p) = true.
Proof.
  induction p as [|b p IH]; intros a Hadj Hch; [done|].
  destruct Hch as [Hab Hch].
  change (hop_wired net a b && all_wired net (b :: p) = true).
  rewrite (Hadj _ _ Hab). by apply IH.
Qed.

(** In a network built with matching labels and wired by [connect] every
    hop of an adjacency list is wired. *)
Lemma adjacent_hop_wired hypot data net0 net a b :
  Network.init data = Val net0 ->
  labels_match net0 ->
  Network.connect hypot net0 = (Val tt, net) ->
  adjacent net a b -> hop_wired net a b = true.
Proof.
  intros Hinit Hlabels Hconn (n & Hn & Hb).
  pose proof (init_fresh _ _ Hinit) as (_ & _ & _ & Hord).
  pose proof (grows_connect hypot net0) as Hg. rewrite Hconn in Hg.
  simpl in Hg.
  destruct (grows_nodes_inv _ _ _ _ Hg Hn)
    as (n0 & Hn0 & (Hlabel & _ & Hconnected & _)).
  assert ((a, b) ∈ edges net0) as Hedge.
  { apply elem_of_edges. exists n0. split; [|by rewrite <- Hconnected].
    apply elem_of_items. split; [|done]. apply Hord, elem_of_dom. eauto. }
  destruct (built_edge _ _ _ _ _ _ Hinit Hconn Hedge)
    as (_ & _ & _ & _ & _ & _ & _ & [(n' & Hn' & Hs) (l & Hl & Hlb)]).
  rewrite Hn in Hn'. injection Hn' as <-.
  assert (Node.label n = a) as Hla.
  { rewrite Hlabel. exact (Hlabels a n0 Hn0). }
  unfold hop_wired, link. rewrite Hn, Hla, Hs, Hl.
  apply bool_decide_eq_true. eauto.
Qed.

(** X15: on a network built from entries whose labels are their keys and
    wired by [connect], every path that [find_paths] returns is wired from
    end to end: [propagate] carries a signal along it without an exception,
    through one line per hop, and leaves the path of the signal empty. *)
Theorem found_paths_propagate (hypot : float -> float -> float)
    (data : list (string * Node.node_dict)) (net0 net : Network.t)
    (start end_ : string) (paths : list (list string)) (p : list string)
    (si : Signal_information.t) (h : gmap loc (list string)) :
  Network.init data = Val net0 ->
  labels_match net0 ->
  Network.connect hypot net0 = (Val tt, net) ->
  Network.find_paths net start end_ = Val paths ->
  p ∈ paths ->
  h !! Signal_information.path si = Some p ->
  all_wired net p = true
  /\ List.length (links net p) = (List.length p - 1)%nat
  /\ Network.propagate net (si, h)
     = (Val (after_walk si (links net p)),
        (after_walk si (links net p),
         <[Signal_information.path si := []]> h)).
Proof.
  intros Hinit Hlabels Hconn Hfind Hin Hp.
  pose proof (built_refs_ok _ _ _ _ Hinit Hconn) as Hrefs.
  pose proof (grows_connect hypot net0) as Hg. rewrite Hconn in Hg.
  simpl in Hg.
  assert (adjacency_closed net) as Hclosed.
  { apply (adjacency_closed_grows net0); [done|].
    eapply connect_adjacency_closed; [by eapply init_fresh | exact Hconn]. }
  destruct (find_paths_closed net start end_ Hclosed)
    as (paths' & Hfind' & Hsound).
  rewrite Hfind in Hfind'. injection Hfind' as <-.
  destruct (Hsound p Hin) as (Hhead & _ & _ & Hall & Hchain).
  destruct p as [|x rest]; [done|].
  assert (all_wired net (x :: rest) = true) as Hw.
  { apply chain_all_wired; [|done]. intros a b.
    by eapply adjacent_hop_wired. }
  split; [done|]. split; [by apply links_length|].
  apply Forall_cons in Hall as [[node Hnode]%elem_of_dom _].
  unfold Network.propagate.
  rewrite (bind_val _ _ _ _ _ (get_path_run _ _ _ Hp)).
  rewrite (bind_val _ _ _ _ _ (subscript_val _ _ _ _ Hnode)).
  assert (2 * List.length rest < 2 * List.length (x :: rest))%nat
    as Hbudget by (simpl; lia).
  by rewrite (bind_val _ _ _ _ _
                (walk net Hrefs rest x node si h _ Hnode Hp Hw Hbudget)).
Qed.

Lemma found_paths_propagate_witness :
  let si := Signal_information.mk 1 0 0 1%positive in
  let p := ["A"; "B"; "C"] in
  let h := Examples.heap_with p in
  Network.init Examples.abc_data = Val Examples.abc_built
  /\ labels_match Examples.abc_built
  /\ Network.connect Examples.hypot Examples.abc_built
     = (Val tt, Examples.abc)
  /\ Network.find_paths Examples.abc "A" "C" = Val [p]
  /\ p ∈ [p]
  /\ h !! Signal_information.path si = Some p
  /\ all_wired Examples.abc p = true
  /\ List.length (links Examples.abc p) = (List.length p - 1)%nat
  /\ Network.propagate Examples.abc (si, h)
     = (Val (after_walk si (links Examples.abc p)),
        (after_walk si (links Examples.abc p),
         <[Signal_information.path si := []]> h)).
Proof.
  intros si p h.
  assert (Network.init Examples.abc_data = Val Examples.abc_built) as H1
    by (vm_compute; reflexivity).
  assert (labels_match Examples.abc_built) as H2.
  { unfold labels_match. apply (bool_decide_unpack _). vm_compute. exact I. }
  assert (Network.connect Examples.hypot Examples.abc_built
          = (Val tt, Examples.abc)) as H3 by (vm_compute; reflexivity).
  assert (Network.find_paths Examples.abc "A" "C" = Val [p]) as H4
    by (vm_compute; reflexivity).
  assert (p ∈ [p]) as H5 by left.
  assert (h !! Signal_information.path si = Some p) as H6 by reflexivity.
  repeat (split; [assumption|]).
  exact (found_paths_propagate Examples.hypot Examples.abc_data
           Examples.abc_built Examples.abc "A" "C" [p] p si h
           H1 H2 H3 H4 H5 H6).
Defined.

(** An entry whose "label" differs from its key is wired under the key and
    looked up under the label: the hop to its neighbour is not wired. *)
Example label_differs_from_key :
  let net := (Network.connect Examples.hypot
                (Examples.network_of
                   [("A"%string,
                     Node.mk_dict (Some "X"%string) (Some [0; 0])
                       (Some ["B"%string]));
                    ("B"%string, Examples.entry [0; 3] [])])).2 in
  Network.find_paths net "A" "B" = Val [["A"; "B"]]%string
  /\ (Network.propagate net
        (Signal_information.mk 1 0 0 1%positive,
         Examples.heap_with ["A"; "B"]%string)).1
     = Exn (KeyError "XB").
Proof. vm_compute. split; reflexivity. Qed.

(** ** [__init__]: labels and keys *)

#[local] Existing Instance well_formed_entry_dec.

(** X16: a network built from entries with distinct keys has every node
    labelled by its key exactly when each entry gives no "label" or gives
    its own key as label. *)
Theorem init_labels_match (data : list (string * Node.node_dict))
    (net : Network.t) :
  NoDup data.*1 ->
  Network.init data = Val net ->
  labels_match net
  <-> Forall (fun e => Node.d_label e.2 = None
                       \/ Node.d_label e.2 = Some e.1) data.
Proof.
  intros Hnd Hinit.
  assert (Forall (fun e => well_formed_entry e.2) data) as Hwf.
  { destruct (Forall_Exists_dec (fun e => well_formed_entry e.2)
                (fun e => ~ well_formed_entry e.2)
                (fun e : string * Node.node_dict =>
                   decide (well_formed_entry e.2)) data)
      as [Hall|Hex]; [done|].
    destruct (init_loop_exn data (Network.mk ∅ [] ∅) Hex)
      as (key & s' & Hrun & _).
    unfold Network.init in Hinit. by rewrite Hrun in Hinit. }
  destruct (init_loop_val data (Network.mk ∅ [] ∅) Hwf Hnd)
    as (net' & Hrun & _ & _ & Hin & Hout).
  { intros k _. simpl. by intros ?%elem_of_nil. }
  unfold Network.init in Hinit. rewrite Hrun in Hinit.
  injection Hinit as ->. unfold labels_match. split.
  - intros Hlabels. apply Forall_forall. intros [k nd] He.
    pose proof (Hlabels k _ (Hin k nd He)) as Hl. simpl in Hl |- *.
    destruct (Node.d_label nd) as [l|]; [right | by left].
    simpl in Hl. by rewrite Hl.
  - intros Hall a n Hn. simpl. rewrite Forall_forall in Hall.
    destruct (decide (a ∈ data.*1)) as [Ha|Ha].
    + apply list_elem_of_fmap in Ha as ([k nd] & -> & He). simpl in *.
      rewrite (Hin k nd He) in Hn. injection Hn as <-.
      destruct (Hall _ He) as [Hl|Hl]; simpl in Hl; simpl; by rewrite Hl.
    + rewrite (Hout a Ha) in Hn. simpl in Hn. by rewrite lookup_empty in Hn.
Qed.

Lemma init_labels_match_witness :
  NoDup Examples.abc_data.*1
  /\ Network.init Examples.abc_data = Val Examples.abc_built
  /\ (labels_match Examples.abc_built
      <-> Forall (fun e => Node.d_label e.2 = None
                           \/ Node.d_label e.2 = Some e.1)
            Examples.abc_data).
Proof.
  assert (NoDup Examples.abc_data.*1) as H1.
  { apply (bool_decide_unpack _). vm_compute. exact I. }
  assert (Network.init Examples.abc_data = Val Examples.abc_built) as H2
    by (vm_compute; reflexivity).
  split; [exact H1|]. split; [exact H2|].
  exact (init_labels_match Examples.abc_data Examples.abc_built H1 H2).
Defined.
